(** * A verification model of generate.py and xes.py (text-datasets)

    [generate.py] runs a pool of threads that call a completion API,
    decode and validate each answer against a JSON schema, and write the
    valid answers to [logs/NAME/] under a shared lock-protected counter.
    [xes.py] reads the written files back and builds an event log.

    This file embeds both scripts: Python text and JSON values, the parts
    of [json.loads], [jsonschema.validate], [requests] and
    [datetime.fromisoformat] the scripts rely on, the thread pool as an
    interleaving step relation, and the exporter as pure functions. *)

From Stdlib Require Import ZArith String Ascii Bool.
From stdpp Require Import base list.

Set Warnings "-register-all".
Open Scope Z_scope.

(* ------------------------------------------------------------------ *)
(** ** Python text *)

(** A Python [str] is a sequence of code points. *)
Definition text := list Z.

(** Literals: an ASCII Rocq string read as code points, where the
    backtick (96) stands for the double quote (34). *)
Definition chr_code (a : ascii) : Z :=
  let n := Z.of_nat (nat_of_ascii a) in
  if n =? 96 then 34 else n.

Fixpoint txt (s : string) : text :=
  match s with
  | EmptyString => []
  | String a s' => chr_code a :: txt s'
  end.

Definition text_eqb (a b : text) : bool := bool_decide (a = b).

Fixpoint starts_with (p s : text) : bool :=
  match p, s with
  | [], _ => true
  | c :: p', d :: s' => (c =? d) && starts_with p' s'
  | _ :: _, [] => false
  end.

(** [str.endswith]. *)
Definition ends_with (suf s : text) : bool := starts_with (rev suf) (rev s).

(** [str.replace(old, new)]: every non-overlapping occurrence, left to
    right. *)
Fixpoint replace_all_aux (fuel : nat) (old new s : text) : text :=
  match fuel with
  | O => s
  | S f =>
      match s with
      | [] => []
      | c :: s' =>
          if starts_with old s
          then new ++ replace_all_aux f old new (drop (length old) s)
          else c :: replace_all_aux f old new s'
      end
  end.

Definition str_replace (old new s : text) : text :=
  replace_all_aux (S (length s)) old new s.

(** [str.isspace] on one code point (the characters Python treats as
    whitespace). *)
Definition py_isspace (c : Z) : bool :=
  ((9 <=? c) && (c <=? 13)) || ((28 <=? c) && (c <=? 32)) ||
  (c =? 133) || (c =? 160) || (c =? 5760) ||
  ((8192 <=? c) && (c <=? 8202)) || (c =? 8232) || (c =? 8233) ||
  (c =? 8239) || (c =? 8287) || (c =? 12288).

Fixpoint lstrip (s : text) : text :=
  match s with
  | c :: s' => if py_isspace c then lstrip s' else s
  | [] => []
  end.

(** [str.strip()]. *)
Definition strip (s : text) : text := rev (lstrip (rev (lstrip s))).

(* ------------------------------------------------------------------ *)
(** ** JSON values as [json.loads] returns them *)

(** A Python float read from a JSON number literal: the decimal value
    [m * 10^e] (binary rounding and overflow to infinity are not
    modelled), or one of the constants [json.loads] accepts. *)
Inductive pyfloat :=
| FDec (m e : Z)
| FNaN
| FInf
| FNegInf.

Inductive json :=
| JNull
| JBool (b : bool)
| JInt (z : Z)
| JFloat (f : pyfloat)
| JStr (s : text)
| JArr (l : list json)
| JObj (kvs : list (text * json)).

(** Python dicts with string keys, in insertion order. *)
Section Dict.
Context {A : Type}.

Fixpoint dict_get (k : text) (d : list (text * A)) : option A :=
  match d with
  | [] => None
  | (k', v) :: d' => if text_eqb k k' then Some v else dict_get k d'
  end.

(** [d[k] = v]: an existing key keeps its position. *)
Fixpoint dict_set (k : text) (v : A) (d : list (text * A)) : list (text * A) :=
  match d with
  | [] => [(k, v)]
  | (k', v') :: d' =>
      if text_eqb k k' then (k', v) :: d' else (k', v') :: dict_set k v d'
  end.

Fixpoint dict_del (k : text) (d : list (text * A)) : list (text * A) :=
  match d with
  | [] => []
  | (k', v') :: d' => if text_eqb k k' then d' else (k', v') :: dict_del k d'
  end.

Definition dict_has (k : text) (d : list (text * A)) : bool :=
  match dict_get k d with Some _ => true | None => false end.
End Dict.

(* ------------------------------------------------------------------ *)
(** ** [json.loads] (the C scanner of CPython's [json] module) *)

Definition is_json_ws (c : Z) : bool :=
  (c =? 32) || (c =? 9) || (c =? 10) || (c =? 13).

Fixpoint skip_ws (s : text) : text :=
  match s with
  | c :: s' => if is_json_ws c then skip_ws s' else s
  | [] => []
  end.

Definition is_digit (c : Z) : bool := (48 <=? c) && (c <=? 57).

Fixpoint take_digits (s : text) : text * text :=
  match s with
  | c :: s' =>
      if is_digit c then let '(ds, r) := take_digits s' in (c :: ds, r)
      else ([], s)
  | [] => ([], [])
  end.

Definition digits_val (ds : text) : Z :=
  fold_left (fun acc d => acc * 10 + (d - 48)) ds 0.

(** What one scanning function of the C scanner gives back: a value and
    the text after it, a [JSONDecodeError], or another exception (the
    [ValueError] of a too long integer, the [RecursionError] of too deep
    nesting), which [json.loads] lets through. *)
Inductive scan_result :=
| Scanned (v : json) (rest : text)
| ScanDecodeError
| ScanRaise.

(** [sys.int_info.default_max_str_digits] (CPython 3.11): [int(s)] and
    [int.__repr__] raise [ValueError] beyond this many decimal digits,
    not counting the sign. *)
Definition INT_MAX_STR_DIGITS : nat := 4300.

(** [_match_number_unicode]: an optional minus, then [0] or a nonzero
    digit and more digits, an optional fraction [.digits], an optional
    exponent [e] or [E] with optional sign and digits; a fraction or
    exponent part without digits is not consumed. A literal without
    fraction and exponent goes through [int()], which raises past
    [INT_MAX_STR_DIGITS] digits. *)
Definition parse_number (s : text) : scan_result :=
  let '(neg, s1) := match s with 45 :: r => (true, r) | _ => (false, s) end in
  let ip :=
    match s1 with
    | 48 :: r => Some ([48], r)
    | c :: _ => if (49 <=? c) && (c <=? 57) then Some (take_digits s1) else None
    | [] => None
    end in
  match ip with
  | None => ScanDecodeError
  | Some (ids, s2) =>
      let '(fds, s3) :=
        match s2 with
        | 46 :: r =>
            let '(fd, r') := take_digits r in
            match fd with [] => ([], s2) | _ => (fd, r') end
        | _ => ([], s2)
        end in
      let '(ex, s4) :=
        match s3 with
        | c :: r =>
            if (c =? 101) || (c =? 69) then
              let '(eneg, r1) :=
                match r with
                | 45 :: r' => (true, r') | 43 :: r' => (false, r') | _ => (false, r)
                end in
              let '(ed, r2) := take_digits r1 in
              match ed with
              | [] => (None, s3)
              | _ => (Some (if eneg then - digits_val ed else digits_val ed), r2)
              end
            else (None, s3)
        | [] => (None, s3)
        end in
      let mag := digits_val (ids ++ fds) in
      let m := if neg then - mag else mag in
      match fds, ex with
      | [], None =>
          if (length ids <=? INT_MAX_STR_DIGITS)%nat then Scanned (JInt m) s4
          else ScanRaise
      | _, _ =>
          let e := match ex with Some x => x | None => 0 end in
          Scanned (JFloat (FDec m (e - Z.of_nat (length fds)))) s4
      end
  end.

Definition hex_val (c : Z) : option Z :=
  if is_digit c then Some (c - 48)
  else if (97 <=? c) && (c <=? 102) then Some (c - 87)
  else if (65 <=? c) && (c <=? 70) then Some (c - 55)
  else None.

Definition hex4 (a b c d : Z) : option Z :=
  match hex_val a, hex_val b, hex_val c, hex_val d with
  | Some x, Some y, Some z, Some w => Some (((x * 16 + y) * 16 + z) * 16 + w)
  | _, _, _, _ => None
  end.

Definition is_high_surrogate (c : Z) : bool := (55296 <=? c) && (c <=? 56319).
Definition is_low_surrogate (c : Z) : bool := (56320 <=? c) && (c <=? 57343).

(** [scanstring] with [strict=True], after the opening quote; [acc] holds
    the code points read so far, reversed. *)
Fixpoint scan_str (s : text) (acc : text) : option (text * text) :=
  match s with
  | [] => None
  | 34 :: r => Some (rev acc, r)
  | 92 :: 117 :: a :: b :: c :: d :: r =>
      match hex4 a b c d with
      | None => None
      | Some u =>
          if is_high_surrogate u then
            match r with
            | 92 :: 117 :: a' :: b' :: c' :: d' :: r' =>
                match hex4 a' b' c' d' with
                | None => None
                | Some u2 =>
                    if is_low_surrogate u2
                    then scan_str r' ((65536 + (u - 55296) * 1024 + (u2 - 56320)) :: acc)
                    else scan_str r (u :: acc)
                end
            | _ => scan_str r (u :: acc)
            end
          else scan_str r (u :: acc)
      end
  | 92 :: e :: r =>
      let out :=
        if e =? 34 then Some 34 else if e =? 92 then Some 92
        else if e =? 47 then Some 47 else if e =? 98 then Some 8
        else if e =? 102 then Some 12 else if e =? 110 then Some 10
        else if e =? 114 then Some 13 else if e =? 116 then Some 9
        else None in
      match out with Some o => scan_str r (o :: acc) | None => None end
  | c :: r => if c <? 32 then None else scan_str r (c :: acc)
  end.

(** [scan_once], [_parse_array] and [_parse_object]. [room] is how many
    more [Py_EnterRecursiveCall]s the interpreter allows: the scanner
    makes one on each [\[] and [{], before looking inside, and raises
    [RecursionError] when none is left. *)
Fixpoint parse_value (fuel room : nat) (s : text) : scan_result :=
  match fuel with
  | O => ScanDecodeError
  | S f =>
      match s with
      | 34 :: r =>
          match scan_str r [] with
          | Some (str, r') => Scanned (JStr str) r'
          | None => ScanDecodeError
          end
      | 123 :: r =>
          match room with
          | O => ScanRaise
          | S room' =>
              match skip_ws r with
              | 125 :: r' => Scanned (JObj []) r'
              | r' => parse_members f room' r' []
              end
          end
      | 91 :: r =>
          match room with
          | O => ScanRaise
          | S room' =>
              match skip_ws r with
              | 93 :: r' => Scanned (JArr []) r'
              | r' => parse_elems f room' r' []
              end
          end
      | 110 :: 117 :: 108 :: 108 :: r => Scanned JNull r
      | 116 :: 114 :: 117 :: 101 :: r => Scanned (JBool true) r
      | 102 :: 97 :: 108 :: 115 :: 101 :: r => Scanned (JBool false) r
      | 78 :: 97 :: 78 :: r => Scanned (JFloat FNaN) r
      | 73 :: 110 :: 102 :: 105 :: 110 :: 105 :: 116 :: 121 :: r =>
          Scanned (JFloat FInf) r
      | 45 :: 73 :: 110 :: 102 :: 105 :: 110 :: 105 :: 116 :: 121 :: r =>
          Scanned (JFloat FNegInf) r
      | _ => parse_number s
      end
  end
with parse_elems (fuel room : nat) (s : text) (acc : list json) : scan_result :=
  match fuel with
  | O => ScanDecodeError
  | S f =>
      match parse_value f room s with
      | Scanned v r =>
          match skip_ws r with
          | 93 :: r' => Scanned (JArr (rev (v :: acc))) r'
          | 44 :: r' => parse_elems f room (skip_ws r') (v :: acc)
          | _ => ScanDecodeError
          end
      | e => e
      end
  end
with parse_members (fuel room : nat) (s : text) (acc : list (text * json))
    : scan_result :=
  match fuel with
  | O => ScanDecodeError
  | S f =>
      match s with
      | 34 :: r =>
          match scan_str r [] with
          | None => ScanDecodeError
          | Some (k, r1) =>
              match skip_ws r1 with
              | 58 :: r2 =>
                  match parse_value f room (skip_ws r2) with
                  | Scanned v r3 =>
                      let acc' := dict_set k v acc in
                      match skip_ws r3 with
                      | 125 :: r4 => Scanned (JObj acc') r4
                      | 44 :: r4 => parse_members f room (skip_ws r4) acc'
                      | _ => ScanDecodeError
                      end
                  | e => e
                  end
              | _ => ScanDecodeError
              end
          end
      | _ => ScanDecodeError
      end
  end.

(** What [json.loads] does: return a value, raise [JSONDecodeError], or
    raise another exception. *)
Inductive loads_result :=
| Loaded (v : json)
| LoadsDecodeError
| LoadsRaise.

(** [json.loads s] with [room] recursion levels left at the call. Every
    nested call consumes input, so the fuel never runs out first. *)
Definition json_loads_in (room : nat) (s : text) : loads_result :=
  match parse_value (3 * length s + 3) room (skip_ws s) with
  | Scanned v r => match skip_ws r with [] => Loaded v | _ => LoadsDecodeError end
  | ScanDecodeError => LoadsDecodeError
  | ScanRaise => LoadsRaise
  end.

(** The recursion room at the three calls of the scripts, on CPython
    3.11 with its default recursion limit of 1000: the deepest nesting of
    lists or dicts that still decodes there, which depends on the frames
    each call sits under. Measured: [generate.py] line 97 ([worker]
    called by [Thread.run]), 992; [xes.py] line 29 ([json.load] in the
    generator [load_json_traces], driven by [build_event_log] from
    [main]), 991. [Response.json] in [call_openai] runs two frames deeper
    than line 97 ([call_openai], [Response.json]), hence 990 when
    [requests] decodes with the standard [json] module. *)
Definition LOADS_ROOM_WORKER : nat := 992.
Definition LOADS_ROOM_REQUESTS : nat := 990.
Definition LOADS_ROOM_XES : nat := 991.

(** [json.loads(content)] at line 97 of [generate.py]. *)
Definition json_loads (s : text) : loads_result := json_loads_in LOADS_ROOM_WORKER s.

(* ------------------------------------------------------------------ *)
(** ** [jsonschema.validate] on the keywords the process schemas use

    The model covers [type], [required], [properties] and [items] with
    the Draft 2020-12 meaning (the default when a schema has no
    [$schema]); other keywords are not modelled and impose nothing here.
    [validate] first checks the schema against the meta-schema and raises
    [SchemaError] (not a [ValidationError]) when it is malformed. *)

Inductive vresult := VOk | VInvalid | VRaise.

Definition pyfloat_is_integer (f : pyfloat) : bool :=
  match f with
  | FDec m e => if 0 <=? e then true else Z.modulo m (10 ^ (- e)) =? 0
  | _ => false
  end.

(** The Draft 2020-12 type checker. *)
Definition has_type (t : text) (v : json) : bool :=
  if text_eqb t (txt "null") then match v with JNull => true | _ => false end
  else if text_eqb t (txt "boolean") then match v with JBool _ => true | _ => false end
  else if text_eqb t (txt "integer") then
    match v with JInt _ => true | JFloat f => pyfloat_is_integer f | _ => false end
  else if text_eqb t (txt "number") then
    match v with JInt _ | JFloat _ => true | _ => false end
  else if text_eqb t (txt "string") then match v with JStr _ => true | _ => false end
  else if text_eqb t (txt "array") then match v with JArr _ => true | _ => false end
  else if text_eqb t (txt "object") then match v with JObj _ => true | _ => false end
  else false.

Definition type_names : list text :=
  map txt ["null"; "boolean"; "integer"; "number"; "string"; "array"; "object"]%string.

Definition json_strs (l : list json) : option (list text) :=
  fold_right (fun j acc =>
    match j, acc with JStr s, Some r => Some (s :: r) | _, _ => None end) (Some []) l.

Definition type_value_ok (v : json) : bool :=
  match v with
  | JStr t => bool_decide (t ∈ type_names)
  | JArr ts =>
      match json_strs ts with
      | Some (t :: r) => bool_decide (Forall (fun x => x ∈ type_names) (t :: r))
                         && bool_decide (NoDup (t :: r))
      | _ => false
      end
  | _ => false
  end.

Definition required_value_ok (v : json) : bool :=
  match v with
  | JArr rs => match json_strs rs with Some l => bool_decide (NoDup l) | None => false end
  | _ => false
  end.

(** [check_schema] against the meta-schema, on the modelled keywords. *)
Fixpoint schema_ok (s : json) : bool :=
  match s with
  | JBool _ => true
  | JObj kvs =>
      (fix kws (l : list (text * json)) : bool :=
         match l with
         | [] => true
         | (k, sv) :: l' =>
             (if text_eqb k (txt "type") then type_value_ok sv
              else if text_eqb k (txt "required") then required_value_ok sv
              else if text_eqb k (txt "properties") then
                match sv with
                | JObj ps =>
                    (fix subs (ps : list (text * json)) : bool :=
                       match ps with
                       | [] => true
                       | (_, sub) :: ps' => schema_ok sub && subs ps'
                       end) ps
                | _ => false
                end
              else if text_eqb k (txt "items") then schema_ok sv
              else true) && kws l'
         end) kvs
  | _ => false
  end.

Definition type_matches (sv v : json) : bool :=
  match sv with
  | JStr t => has_type t v
  | JArr ts => existsb (fun t => match t with JStr t => has_type t v | _ => false end) ts
  | _ => true
  end.

Definition required_holds (sv v : json) : bool :=
  match v, sv with
  | JObj inst, JArr rs =>
      forallb (fun r => match r with JStr k => dict_has k inst | _ => true end) rs
  | _, _ => true
  end.

(** [iter_errors] yields nothing: the instance [v] satisfies schema [s]. *)
Fixpoint is_valid (s : json) (v : json) : bool :=
  match s with
  | JBool b => b
  | JObj kvs =>
      (fix kws (l : list (text * json)) : bool :=
         match l with
         | [] => true
         | (k, sv) :: l' =>
             (if text_eqb k (txt "type") then type_matches sv v
              else if text_eqb k (txt "required") then required_holds sv v
              else if text_eqb k (txt "properties") then
                match sv, v with
                | JObj ps, JObj inst =>
                    (fix props (ps : list (text * json)) : bool :=
                       match ps with
                       | [] => true
                       | (pk, psub) :: ps' =>
                           match dict_get pk inst with
                           | Some iv => is_valid psub iv
                           | None => true
                           end && props ps'
                       end) ps
                | _, _ => true
                end
              else if text_eqb k (txt "items") then
                match v with JArr elems => forallb (is_valid sv) elems | _ => true end
              else true) && kws l'
         end) kvs
  | _ => true
  end.

(** [validate(instance=data, schema=schema)]: [VInvalid] is a raised
    [ValidationError], [VRaise] any other exception ([SchemaError]). *)
Definition validate (instance schema : json) : vresult :=
  if schema_ok schema then (if is_valid schema instance then VOk else VInvalid)
  else VRaise.

(* ------------------------------------------------------------------ *)
(** ** [call_openai] and the content extraction of the worker *)

(** What the single [requests.post] of [call_openai] gives back: it raises
    (connection failure, timeout, ...) or returns the final response. *)
Inductive http_result :=
| ConnError
| HttpResponse (status : Z) (body : text).

(** [Response.raise_for_status] raises exactly for 4xx and 5xx codes. *)
Definition raise_for_status (status : Z) : bool :=
  (400 <=? status) && (status <? 600).

(** [call_openai]: [None] is a raised exception. *)
Definition call_openai (r : http_result) : option json :=
  match r with
  | ConnError => None
  | HttpResponse status body =>
      if raise_for_status status then None
      else match json_loads_in LOADS_ROOM_REQUESTS body with
           | Loaded v => Some v
           | _ => None
           end
  end.

(** [result['choices'][0]['message']['content'].strip()]; every failing
    subscript or a non-[str] content raises ([None]). *)
Definition extract_content (result : json) : option text :=
  match result with
  | JObj r =>
      match dict_get (txt "choices") r with
      | Some (JArr (JObj c :: _)) =>
          match dict_get (txt "message") c with
          | Some (JObj m) =>
              match dict_get (txt "content") m with
              | Some (JStr s) => Some (strip s)
              | _ => None
              end
          | _ => None
          end
      | _ => None
      end
  | _ => None
  end.

(** The [try] block of lines 88-90: [None] sends the worker to
    [continue]. *)
Definition request_content (r : http_result) : option text :=
  match call_openai r with
  | Some result => extract_content result
  | None => None
  end.

(* ------------------------------------------------------------------ *)
(** ** The worker thread (lines 70-115) *)

(** The [try] block of lines 96-101. [SDecodeError] and
    [SSchemaViolation] are the two exceptions the [except] clause names;
    [SLoadsRaise] is another exception of [json.loads] (the [ValueError]
    of an integer literal over [INT_MAX_STR_DIGITS] digits, the
    [RecursionError] of nesting deeper than [LOADS_ROOM_WORKER]) and
    [SRaise] any other exception of [validate]; both escape. The
    validator is a parameter so that [decode_validate] can be compared
    across validators. *)
Inductive stage :=
| SDecodeError
| SSchemaViolation
| SLoadsRaise
| SRaise
| SValid (data : json).

Definition decode_validate_with (validator : json -> json -> vresult)
    (schema : json) (content : text) : stage :=
  match json_loads content with
  | LoadsDecodeError => SDecodeError
  | LoadsRaise => SLoadsRaise
  | Loaded data =>
      match validator data schema with
      | VOk => SValid data
      | VInvalid => SSchemaViolation
      | VRaise => SRaise
      end
  end.

Definition decode_validate : json -> text -> stage :=
  decode_validate_with validate.

(** Where a thread is in [worker]: at the top of the [while] loop, about
    to call the API, holding a content string, holding validated data
    before the second locked block, returned, or ended by an uncaught
    exception. *)
Inductive wstate :=
| WCheck
| WRequest
| WDecode (content : text)
| WCommit (data : json)
| WReturned
| WRaised.

(** What writing one file does: [open] and [json.dump] succeed, [open]
    raises (no file), or [json.dump] raises after [open] created the file
    (e.g. a lone surrogate in [data] cannot be encoded as UTF-8). *)
Inductive persist_outcome := PersistOk | OpenFails | DumpFails.

(** The input a step takes from outside the shared state. *)
Inductive label :=
| LInternal
| LResponse (r : http_result)
| LPersist (p : persist_outcome).

Inductive artifact :=
| Written (data : json)
| PartiallyWritten.

(** [counter['value']] and the files this run created in [log_dir]
    (newest first). *)
Record shared := mkShared {
  counter_value : Z;
  files_created : list artifact
}.

(** One atomic step of a worker. The two [with counter_lock] blocks are
    single steps; the request and the decoding run outside the lock. *)
Definition worker_step (target_total : Z) (schema : json) (sh : shared)
    (w : wstate) (l : label) : option (shared * wstate) :=
  match w, l with
  | WCheck, LInternal =>
      if target_total <=? counter_value sh then Some (sh, WReturned)
      else Some (sh, WRequest)
  | WRequest, LResponse r =>
      match request_content r with
      | None => Some (sh, WCheck)
      | Some content => Some (sh, WDecode content)
      end
  | WDecode content, LInternal =>
      match decode_validate schema content with
      | SDecodeError | SSchemaViolation => Some (sh, WCheck)
      | SLoadsRaise | SRaise => Some (sh, WRaised)
      | SValid data => Some (sh, WCommit data)
      end
  | WCommit data, LPersist p =>
      if counter_value sh <? target_total then
        match p with
        | PersistOk =>
            Some (mkShared (counter_value sh + 1) (Written data :: files_created sh),
                  WCheck)
        | OpenFails => Some (sh, WRaised)
        | DumpFails =>
            Some (mkShared (counter_value sh) (PartiallyWritten :: files_created sh),
                  WRaised)
        end
      else Some (sh, WReturned)
  | _, _ => None
  end.

(* ------------------------------------------------------------------ *)
(** ** The thread pool and [main] (lines 118-167) *)

Record world := mkWorld {
  w_shared : shared;
  w_workers : list wstate
}.

(** Thread [i] takes one step with input [l]. *)
Definition step (target_total : Z) (schema : json) (w : world) (i : nat)
    (l : label) : option world :=
  match w_workers w !! i with
  | None => None
  | Some ws =>
      match worker_step target_total schema (w_shared w) ws l with
      | Some (sh', ws') => Some (mkWorld sh' (<[i := ws']> (w_workers w)))
      | None => None
      end
  end.

(** An interleaving: the scheduled thread and its input, step by step. *)
Fixpoint run (target_total : Z) (schema : json) (w : world)
    (sched : list (nat * label)) : option world :=
  match sched with
  | [] => Some w
  | (i, l) :: sched' =>
      match step target_total schema w i l with
      | Some w' => run target_total schema w' sched'
      | None => None
      end
  end.

Definition MAX_THREADS : Z := 30.

Inductive launch :=
| NothingToDo (final_count : Z)
| Pool (w : world).

(** Lines 140-161: [existing] is the number of [*.json] files already in
    [log_dir]; [total] is the [--total] argument. *)
Definition main_launch (existing : nat) (total : Z) : launch :=
  if total <=? Z.of_nat existing then NothingToDo (Z.of_nat existing)
  else
    let num_threads := Z.min MAX_THREADS (total - Z.of_nat existing) in
    Pool (mkWorld (mkShared (Z.of_nat existing) [])
                  (replicate (Z.to_nat num_threads) WCheck)).

(** A thread has ended, normally or by an exception. *)
Definition terminated (ws : wstate) : bool :=
  match ws with WReturned | WRaised => true | _ => false end.

Definition all_returned (w : world) : Prop := Forall (fun ws => ws = WReturned) (w_workers w).
Definition all_terminated (w : world) : Prop :=
  Forall (fun ws => terminated ws = true) (w_workers w).

(* ------------------------------------------------------------------ *)
(** ** Counting files and threads *)

Definition is_raised (ws : wstate) : bool :=
  match ws with WRaised => true | _ => false end.

Fixpoint count_raised (ws : list wstate) : Z :=
  match ws with
  | [] => 0
  | w :: r => (if is_raised w then 1 else 0) + count_raised r
  end.

Fixpoint count_written (fs : list artifact) : Z :=
  match fs with
  | [] => 0
  | Written _ :: r => 1 + count_written r
  | PartiallyWritten :: r => count_written r
  end.

Fixpoint count_partial (fs : list artifact) : Z :=
  match fs with
  | [] => 0
  | Written _ :: r => count_partial r
  | PartiallyWritten :: r => 1 + count_partial r
  end.

(** The number of labels of a schedule that deliver a response whose
    content decodes and passes the schema. *)
Fixpoint valid_candidates (schema : json) (sched : list (nat * label)) : Z :=
  match sched with
  | [] => 0
  | (_, LResponse r) :: sched' =>
      match request_content r with
      | Some c =>
          match decode_validate schema c with
          | SValid _ => 1 + valid_candidates schema sched'
          | _ => valid_candidates schema sched'
          end
      | None => valid_candidates schema sched'
      end
  | _ :: sched' => valid_candidates schema sched'
  end.

(** The invariant of a pool launched with [existing] files toward
    [target]. *)
Record pool_inv (existing target : Z) (w : world) : Prop := {
  inv_lower : existing <= counter_value (w_shared w);
  inv_upper : counter_value (w_shared w) <= target;
  inv_written : counter_value (w_shared w)
                = existing + count_written (files_created (w_shared w));
  inv_partial : count_partial (files_created (w_shared w)) <= count_raised (w_workers w);
  inv_returned : forall i, w_workers w !! i = Some WReturned ->
                 target <= counter_value (w_shared w)
}.

(* ------------------------------------------------------------------ *)
(** ** [datetime.fromisoformat]

    The format [datetime.isoformat()] produces, as the Python 3.7-3.10
    parser accepts it: [YYYY-MM-DD], then optionally any one separator
    character and [HH[:MM[:SS[.fff|.ffffff]]]], then optionally an offset
    [+HH:MM[:SS[.ffffff]]] or with [-]. The range checks of the
    [datetime] and [timezone] constructors apply. The exporter's
    properties below are also proved for any parser. *)

Record datetime := mkDatetime {
  dt_year : Z; dt_month : Z; dt_day : Z;
  dt_hour : Z; dt_minute : Z; dt_second : Z; dt_microsecond : Z;
  dt_utcoffset : option Z  (* microseconds east of UTC; [None]: naive *)
}.

Fixpoint digits_exact (n : nat) (s : text) : option (Z * text) :=
  match n with
  | O => Some (0, s)
  | S n' =>
      match s with
      | c :: r =>
          if is_digit c then
            match digits_exact n' r with
            | Some (v, r') => Some ((c - 48) * 10 ^ Z.of_nat n' + v, r')
            | None => None
            end
          else None
      | [] => None
      end
  end.

(** [_parse_isoformat_date] on the first ten characters. *)
Definition parse_iso_date (s : text) : option (Z * Z * Z) :=
  match digits_exact 4 s with
  | Some (y, 45 :: r1) =>
      match digits_exact 2 r1 with
      | Some (m, 45 :: r2) =>
          match digits_exact 2 r2 with
          | Some (d, []) => Some (y, m, d)
          | _ => None
          end
      | _ => None
      end
  | _ => None
  end.

(** [_parse_hh_mm_ss_ff]: the whole string must be used. *)
Definition parse_hh_mm_ss_ff (s : text) : option (Z * Z * Z * Z) :=
  match digits_exact 2 s with
  | Some (hh, []) => Some (hh, 0, 0, 0)
  | Some (hh, 58 :: r1) =>
      match digits_exact 2 r1 with
      | Some (mm, []) => Some (hh, mm, 0, 0)
      | Some (mm, 58 :: r2) =>
          match digits_exact 2 r2 with
          | Some (ss, []) => Some (hh, mm, ss, 0)
          | Some (ss, 46 :: f) =>
              match length f with
              | 3%nat => match digits_exact 3 f with
                         | Some (us, []) => Some (hh, mm, ss, us * 1000) | _ => None end
              | 6%nat => match digits_exact 6 f with
                         | Some (us, []) => Some (hh, mm, ss, us) | _ => None end
              | _ => None
              end
          | _ => None
          end
      | _ => None
      end
  | _ => None
  end.

Fixpoint find_index (p : Z -> bool) (s : text) : option nat :=
  match s with
  | [] => None
  | c :: r => if p c then Some 0%nat else option_map S (find_index p r)
  end.

(** [_parse_isoformat_time]: the offset starts at the first [-], or
    failing that at the first [+]. *)
Definition parse_iso_time (s : text) : option (Z * Z * Z * Z * option Z) :=
  if (length s <? 2)%nat then None else
  let tz_pos :=
    match find_index (fun c => c =? 45) s with
    | Some i => Some i
    | None => find_index (fun c => c =? 43) s
    end in
  match tz_pos with
  | None =>
      match parse_hh_mm_ss_ff s with
      | Some (h, mi, se, us) => Some (h, mi, se, us, None)
      | None => None
      end
  | Some i =>
      let tzstr := drop (S i) s in
      let sign := match s !! i with Some 45 => -1 | _ => 1 end in
      if negb (bool_decide (length tzstr ∈ [5%nat; 8%nat; 15%nat])) then None else
      match parse_hh_mm_ss_ff (take i s), parse_hh_mm_ss_ff tzstr with
      | Some (h, mi, se, us), Some (th, tm, ts, tus) =>
          let off := sign * (((th * 60 + tm) * 60 + ts) * 1000000 + tus) in
          if Z.abs off <? 86400000000 then Some (h, mi, se, us, Some off) else None
      | _, _ => None
      end
  end.

Definition is_leap (y : Z) : bool :=
  (Z.modulo y 4 =? 0) && (negb (Z.modulo y 100 =? 0) || (Z.modulo y 400 =? 0)).

Definition days_in_month (y m : Z) : Z :=
  if m =? 2 then (if is_leap y then 29 else 28)
  else if (m =? 4) || (m =? 6) || (m =? 9) || (m =? 11) then 30 else 31.

(** The checks of the [datetime] constructor. *)
Definition datetime_ok (d : datetime) : bool :=
  (1 <=? dt_year d) && (dt_year d <=? 9999) &&
  (1 <=? dt_month d) && (dt_month d <=? 12) &&
  (1 <=? dt_day d) && (dt_day d <=? days_in_month (dt_year d) (dt_month d)) &&
  (0 <=? dt_hour d) && (dt_hour d <=? 23) &&
  (0 <=? dt_minute d) && (dt_minute d <=? 59) &&
  (0 <=? dt_second d) && (dt_second d <=? 59) &&
  (0 <=? dt_microsecond d) && (dt_microsecond d <=? 999999).

(** [datetime.fromisoformat]: [None] is a raised [ValueError]. *)
Definition fromisoformat (s : text) : option datetime :=
  match parse_iso_date (take 10 s) with
  | None => None
  | Some (y, m, d) =>
      let tstr := drop 11 s in
      let time :=
        match tstr with
        | [] => Some (0, 0, 0, 0, None)
        | _ => parse_iso_time tstr
        end in
      match time with
      | Some (h, mi, se, us, off) =>
          let dt := mkDatetime y m d h mi se us off in
          if datetime_ok dt then Some dt else None
      | None => None
      end
  end.

(* ------------------------------------------------------------------ *)
(** ** xes.py: [load_json_traces] and [build_event_log] *)

(** A file of the sorted [logs_path.glob('*.json')]: its stem and its
    text, [None] when [open] or the UTF-8 read raises. *)
Definition json_file := (text * option text)%type.

(** [json.load(f)] inside the [try]: [None] is any exception, the
    [except Exception] of line 30 catching [JSONDecodeError],
    [ValueError] and [RecursionError] alike. *)
Definition file_json (contents : option text) : option json :=
  match contents with
  | Some t =>
      match json_loads_in LOADS_ROOM_XES t with
      | Loaded v => Some v
      | _ => None
      end
  | None => None
  end.

(** Lines 35-37: [None] (here [JNull]) unless [data] is a dict with a
    [cluster] key; a [null] value is [None] too. *)
Definition cluster_of (data : json) : json :=
  match data with
  | JObj kvs => match dict_get (txt "cluster") kvs with Some c => c | None => JNull end
  | _ => JNull
  end.

(** Lines 40-46: [None] means the file is skipped. *)
Definition events_of (data : json) : option (list json) :=
  match data with
  | JObj kvs => match dict_get (txt "events") kvs with Some (JArr evs) => Some evs | _ => None end
  | JArr evs => Some evs
  | _ => None
  end.

(** [load_json_traces]: the yielded [(trace_id, events, cluster)]. *)
Fixpoint load_json_traces (files : list json_file) : list (text * list json * json) :=
  match files with
  | [] => []
  | (stem, contents) :: rest =>
      match file_json contents with
      | None => load_json_traces rest
      | Some data =>
          match events_of data with
          | Some events => (stem, events, cluster_of data) :: load_json_traces rest
          | None => load_json_traces rest
          end
      end
  end.

(** Attribute values of pm4py objects: decoded JSON, or a [datetime]. *)
Inductive pyval :=
| PJson (j : json)
| PDatetime (d : datetime).

Definition attrs := list (text * pyval).

Record trace := mkTrace {
  trace_attributes : attrs;
  trace_events : list attrs
}.

(** The outcome of the exporter: a value, a raised exception, or a
    behaviour of pm4py's [Event] constructor on a non-dict that this
    model does not describe. *)
Inductive xresult (A : Type) :=
| XOk (a : A)
| XRaise
| XUnmodelled.
Arguments XOk {A} a.
Arguments XRaise {A}.
Arguments XUnmodelled {A}.

(** Lines 64-67 on a dict: [ev[new] = ev.pop(old)]. *)
Definition rename_key (old new : text) (kvs : list (text * json)) : list (text * json) :=
  match dict_get old kvs with
  | Some v => dict_set new v (dict_del old kvs)
  | None => kvs
  end.

Definition rename_event_keys (kvs : list (text * json)) : list (text * json) :=
  rename_key (txt "timestamp") (txt "time:timestamp")
    (rename_key (txt "activity") (txt "concept:name") kvs).

(** Lines 72-76: the string handed to [fromisoformat]. *)
Definition timestamp_parse_str (ts : text) : text :=
  let ts_str :=
    if ends_with (txt "+00:00") ts
    then take (length ts - 6) ts ++ txt "Z" else ts in
  if ends_with (txt "Z") ts_str then str_replace (txt "Z") (txt "+00:00") ts_str
  else ts_str.

(** [needle in ev] for an [ev] that is not a dict. *)
Fixpoint text_infix (needle s : text) : bool :=
  match s with
  | [] => match needle with [] => true | _ => false end
  | _ :: s' => starts_with needle s || text_infix needle s'
  end.

Section Exporter.
(** The [datetime.fromisoformat] in use. *)
Variable fromiso : text -> option datetime.

(** Lines 62-84 for one element [ev] of the events list. *)
Definition convert_event (ev : json) : xresult attrs :=
  match ev with
  | JObj kvs =>
      let kvs' := rename_event_keys kvs in
      let base := map (fun '(k, v) => (k, PJson v)) kvs' in
      match dict_get (txt "time:timestamp") kvs' with
      | Some (JStr ts) =>
          match fromiso (timestamp_parse_str ts) with
          | Some dt => XOk (dict_set (txt "time:timestamp") (PDatetime dt) base)
          | None => XOk base
          end
      | _ => XOk base
      end
  | JStr s =>
      (* [str] has no [pop]; otherwise [Event(s)] *)
      if text_infix (txt "activity") s || text_infix (txt "timestamp") s
      then XRaise else XUnmodelled
  | JArr l =>
      (* [list.pop('activity')] and [l['time:timestamp']] raise *)
      if existsb (fun j => match j with
                           | JStr t => text_eqb t (txt "activity")
                                       || text_eqb t (txt "timestamp")
                                       || text_eqb t (txt "time:timestamp")
                           | _ => false end) l
      then XRaise else XUnmodelled
  | _ => XRaise  (* ['activity' in ev] on a number, bool or None *)
  end.

Fixpoint convert_events (evs : list json) : xresult (list attrs) :=
  match evs with
  | [] => XOk []
  | ev :: rest =>
      match convert_event ev with
      | XOk e =>
          match convert_events rest with
          | XOk es => XOk (e :: es)
          | XRaise => XRaise
          | XUnmodelled => XUnmodelled
          end
      | XRaise => XRaise
      | XUnmodelled => XUnmodelled
      end
  end.

(** Lines 56-60. *)
Definition trace_attrs (trace_id : text) (cluster : json) : attrs :=
  (txt "concept:name", PJson (JStr trace_id)) ::
  match cluster with JNull => [] | c => [(txt "cluster", PJson c)] end.

Fixpoint build_event_log (traces : list (text * list json * json)) : xresult (list trace) :=
  match traces with
  | [] => XOk []
  | (trace_id, events, cluster) :: rest =>
      match convert_events events with
      | XOk es =>
          match build_event_log rest with
          | XOk log => XOk (mkTrace (trace_attrs trace_id cluster) es :: log)
          | XRaise => XRaise
          | XUnmodelled => XUnmodelled
          end
      | XRaise => XRaise
      | XUnmodelled => XUnmodelled
      end
  end.
End Exporter.

(* ------------------------------------------------------------------ *)
(** ** Concrete inputs *)

(** The schema [{"type":"object","required":["x"],"properties":{"x":{"type":"integer"}}}]. *)
Definition example_schema : json :=
  JObj [(txt "type", JStr (txt "object"));
        (txt "required", JArr [JStr (txt "x")]);
        (txt "properties", JObj [(txt "x", JObj [(txt "type", JStr (txt "integer"))])])].

(** A 200 response whose content is [{"x": 5}]. *)
Definition valid_answer : http_result :=
  HttpResponse 200 (txt "{`choices`:[{`message`:{`content`:`{\`x\`: 5}`}}]}").

(** One loop iteration of thread [i] that receives [valid_answer] and
    then writes with outcome [p]. *)
Definition attempt (i : nat) (p : persist_outcome) : list (nat * label) :=
  [(i, LInternal); (i, LResponse valid_answer); (i, LInternal); (i, LPersist p)].

(* ------------------------------------------------------------------ *)
(** ** Measures and predicates on runs *)

(** The most steps a thread can still take once the counter has reached
    the target: a check returns; a request leads to a check or to
    decoding; decoding leads to a check, an exception or a commit; a
    commit returns. An ended thread takes none. *)
Definition steps_left (ws : wstate) : nat :=
  match ws with
  | WCheck => 1
  | WRequest => 3
  | WDecode _ => 2
  | WCommit _ => 1
  | WReturned | WRaised => 0
  end.

Fixpoint pending_steps (wss : list wstate) : nat :=
  match wss with
  | [] => 0
  | ws :: r => steps_left ws + pending_steps r
  end.

(** [d] is what [json.loads] made of the content of some response, and it
    passed [validate]. *)
Definition validated_output (schema d : json) : Prop :=
  exists r c, request_content r = Some c /\ json_loads c = Loaded d /\ validate d schema = VOk.

Definition thread_provenance (schema : json) (ws : wstate) : Prop :=
  match ws with
  | WDecode c => exists r, request_content r = Some c
  | WCommit d => validated_output schema d
  | _ => True
  end.

Definition artifact_provenance (schema : json) (a : artifact) : Prop :=
  match a with
  | Written d => validated_output schema d
  | PartiallyWritten => True
  end.


(* ------------------------------------------------------------------ *)
(** ** [json.dump(data, f, ensure_ascii=False, indent=2)]

    The pure-Python [_make_iterencode] that [json.dump] uses whenever an
    indent is given, with [indent=2], the default separators [(', ', ': ')]
    turned into [(',', ': ')] by the indent, and [py_encode_basestring]
    for strings since [ensure_ascii=False]. *)

(** One lowercase hexadecimal digit of [format(i, '04x')]. *)
Definition hex_lower (n : Z) : Z := if n <? 10 then 48 + n else 87 + n.

(** [ESCAPE_DCT]: backslash, quote, the five named control escapes, and
    [\u00XX] for the other code points below 32. *)
Definition escape_char (c : Z) : text :=
  if c =? 92 then [92; 92]
  else if c =? 34 then [92; 34]
  else if c =? 8 then [92; 98]
  else if c =? 12 then [92; 102]
  else if c =? 10 then [92; 110]
  else if c =? 13 then [92; 114]
  else if c =? 9 then [92; 116]
  else if c <? 32 then [92; 117; 48; 48; hex_lower (c / 16); hex_lower (c mod 16)]
  else [c].

(** [py_encode_basestring]. *)
Definition encode_basestring (s : text) : text := 34 :: flat_map escape_char s ++ [34].

(** The decimal digits of [n >= 0] in front of [acc]. *)
Fixpoint decimal_aux (fuel : nat) (n : Z) (acc : text) : text :=
  match fuel with
  | O => acc
  | S f =>
      if n <? 10 then (48 + n) :: acc
      else decimal_aux f (n / 10) ((48 + n mod 10) :: acc)
  end.

(** The decimal digits of [n >= 0]. *)
Definition decimal (n : Z) : text := decimal_aux (S (Z.to_nat (Z.log2 n))) n [].

(** [int.__repr__]: [None] is its [ValueError] past [INT_MAX_STR_DIGITS]
    digits (the sign not counted). *)
Definition int_repr (z : Z) : option text :=
  if (length (decimal (Z.abs z)) <=? INT_MAX_STR_DIGITS)%nat then
    Some (if z <? 0 then 45 :: decimal (Z.abs z) else decimal (Z.abs z))
  else None.

(** The recursion room of [json.dump] at line 109 of [generate.py]
    (CPython 3.11, the pure-Python encoder that [indent=2] selects): each
    list or dict, empty or not, is one more frame of [_iterencode_list]
    or [_iterencode_dict], and the one at indent level [DUMP_ROOM] raises
    [RecursionError]. Measured as for [LOADS_ROOM_WORKER]: data nested
    994 deep is written, 995 deep is not. *)
Definition DUMP_ROOM : nat := 994.

Definition newline_indent (level : nat) : text := 10 :: repeat 32 (2 * level).

(** [separator.join(items)]. *)
Fixpoint join_items (sep : text) (items : list text) : text :=
  match items with
  | [] => []
  | [x] => x
  | x :: rest => x ++ sep ++ join_items sep rest
  end.

Fixpoint encode_all {A : Type} (enc : A -> option text) (l : list A) : option (list text) :=
  match l with
  | [] => Some []
  | x :: r =>
      match enc x, encode_all enc r with
      | Some e, Some es => Some (e :: es)
      | _, _ => None
      end
  end.

(** [_iterencode] at indent level [level]. [None]: an exception, or the
    value holds a finite float, whose [float.__repr__] is not modelled. *)
Fixpoint encode_value (level : nat) (v : json) : option text :=
  match v with
  | JNull => Some (txt "null")
  | JBool true => Some (txt "true")
  | JBool false => Some (txt "false")
  | JInt z => int_repr z
  | JFloat FNaN => Some (txt "NaN")
  | JFloat FInf => Some (txt "Infinity")
  | JFloat FNegInf => Some (txt "-Infinity")
  | JFloat (FDec _ _) => None
  | JStr s => Some (encode_basestring s)
  | JArr l =>
      if (DUMP_ROOM <=? level)%nat then None else
      match l with
      | [] => Some (txt "[]")
      | _ =>
          match encode_all (encode_value (S level)) l with
          | Some es =>
              Some ([91] ++ newline_indent (S level)
                    ++ join_items (44 :: newline_indent (S level)) es
                    ++ newline_indent level ++ [93])
          | None => None
          end
      end
  | JObj kvs =>
      if (DUMP_ROOM <=? level)%nat then None else
      match kvs with
      | [] => Some (txt "{}")
      | _ =>
          match encode_all (fun '(k, x) =>
                              match encode_value (S level) x with
                              | Some e => Some (encode_basestring k ++ txt ": " ++ e)
                              | None => None
                              end) kvs with
          | Some es =>
              Some ([123] ++ newline_indent (S level)
                    ++ join_items (44 :: newline_indent (S level)) es
                    ++ newline_indent level ++ [125])
          | None => None
          end
      end
  end.

(** The text [json.dump] writes for [data]. *)
Definition json_dump (data : json) : option text := encode_value 0 data.

(** A value Python can hold: code points are not negative, and a dict
    has no key twice. *)
Fixpoint json_wf (v : json) : Prop :=
  match v with
  | JStr s => Forall (fun c => 0 <= c) s
  | JArr l => fold_right (fun x P => json_wf x /\ P) True l
  | JObj kvs =>
      NoDup (map fst kvs) /\
      fold_right (fun '(k, x) P => Forall (fun c => 0 <= c) k /\ json_wf x /\ P) True kvs
  | _ => True
  end.

(** The fuel the decoder needs for a value. *)
Fixpoint jsize (v : json) : nat :=
  match v with
  | JArr l => S (fold_right (fun x n => S (jsize x + n)) 0%nat l)
  | JObj kvs => S (fold_right (fun '(_, x) n => S (jsize x + n)) 0%nat kvs)
  | _ => 1
  end.

(** How deep lists and dicts nest in a value: the number of recursion
    levels decoding or encoding it takes. *)
Fixpoint jdepth (v : json) : nat :=
  match v with
  | JArr l => S (fold_right (fun x n => Nat.max (jdepth x) n) 0%nat l)
  | JObj kvs => S (fold_right (fun '(_, x) n => Nat.max (jdepth x) n) 0%nat kvs)
  | _ => 0
  end.

(** What the scanner gives for [v] followed by [rest] with [room]
    recursion levels left. *)
Definition scan_expect (room : nat) (v : json) (rest : text) : scan_result :=
  if (jdepth v <=? room)%nat then Scanned v rest else ScanRaise.

(** What may follow a value in the output of [json.dump]. *)
Definition value_end (rest : text) : Prop :=
  rest = [] \/ (exists r, rest = 44 :: r) \/ (exists r, rest = 10 :: r).

(** Induction on JSON values, with the elements of arrays and objects. *)
Section JsonInd.
Variable P : json -> Prop.
Hypothesis HNull : P JNull.
Hypothesis HBool : forall b, P (JBool b).
Hypothesis HInt : forall z, P (JInt z).
Hypothesis HFloat : forall f, P (JFloat f).
Hypothesis HStr : forall s, P (JStr s).
Hypothesis HArr : forall l, Forall P l -> P (JArr l).
Hypothesis HObj : forall kvs, Forall (fun kv => P (snd kv)) kvs -> P (JObj kvs).

Fixpoint json_ind_nested (v : json) : P v :=
  match v with
  | JNull => HNull
  | JBool b => HBool b
  | JInt z => HInt z
  | JFloat f => HFloat f
  | JStr s => HStr s
  | JArr l =>
      HArr l ((fix go (l : list json) : Forall P l :=
                 match l with
                 | [] => @List.Forall_nil json P
                 | x :: r => @List.Forall_cons json P x r (json_ind_nested x) (go r)
                 end) l)
  | JObj kvs =>
      HObj kvs ((fix go (kvs : list (text * json)) : Forall (fun kv => P (snd kv)) kvs :=
                   match kvs with
                   | [] => @List.Forall_nil (text * json) (fun kv => P (snd kv))
                   | (k, x) :: r =>
                       @List.Forall_cons (text * json) (fun kv => P (snd kv)) (k, x) r
                         (json_ind_nested x) (go r)
                   end) kvs)
  end.
End JsonInd.

(** What the round trip needs of a value and its text: the text is at
    least as long as the decoder's fuel, starts with a character that is
    neither whitespace nor [\]], and decodes back to the value in front of
    anything that may follow it, when the recursion room suffices. *)
Definition decodes_back (v : json) (t : text) : Prop :=
  (jsize v <= length t)%nat /\
  (exists c t', t = c :: t' /\ is_json_ws c = false /\ c <> 93) /\
  forall fuel room rest, (jsize v <= fuel)%nat -> value_end rest ->
    parse_value fuel room (t ++ rest) = scan_expect room v rest.

(** A member [k: v] of an object and its text. *)
Definition member_back (kv : text * json) (item : text) : Prop :=
  Forall (fun c => 0 <= c) (fst kv) /\
  exists e, item = encode_basestring (fst kv) ++ txt ": " ++ e /\ decodes_back (snd kv) e.

(** ... at every indent level. *)
Definition dump_ok (v : json) : Prop :=
  forall level t, json_wf v -> encode_value level v = Some t -> decodes_back v t.

(** A process record with every kind of value the writer can meet. *)
Definition sample_record : json :=
  JObj [(txt "name", JStr (txt "Order handling"));
        (txt "activities", JArr [JStr (txt "Receive order"); JStr (txt "Ship")]);
        (txt "count", JInt 12); (txt "delta", JInt (-305));
        (txt "note", JStr (txt "say " ++ [34] ++ txt "hi" ++ [34; 92; 10; 9; 1]));
        (txt "meta", JObj [(txt "ok", JBool true); (txt "none", JNull);
                           (txt "score", JFloat FNaN); (txt "tags", JArr [])]);
        (txt "extra", JObj [])].
Lemma count_written_nonneg fs : 0 <= count_written fs.
Proof. induction fs as [|[] fs IH]; simpl; lia. Qed.

Lemma count_partial_nonneg fs : 0 <= count_partial fs.
Proof. induction fs as [|[] fs IH]; simpl; lia. Qed.

Lemma length_files fs :
  Z.of_nat (length fs) = count_written fs + count_partial fs.
Proof. induction fs as [|[] fs IH]; simpl; lia. Qed.

Lemma count_raised_insert (l : list wstate) i x y :
  l !! i = Some x ->
  count_raised (<[i := y]> l) + (if is_raised x then 1 else 0)
  = count_raised l + (if is_raised y then 1 else 0).
Proof.
  revert i. induction l as [|a l IH]; intros [|i] H; simpl in *; try discriminate.
  - injection H as ->. lia.
  - specialize (IH i H). lia.
Qed.

Lemma count_raised_nonneg l : 0 <= count_raised l.
Proof. induction l as [|[] l IH]; simpl; lia. Qed.

(** What one step of a worker can do to the shared state. *)
Lemma worker_step_cases target schema sh ws l sh' ws' :
  worker_step target schema sh ws l = Some (sh', ws') ->
  is_raised ws = false /\
  ((sh' = sh /\ (ws' = WReturned -> target <= counter_value sh))
   \/ (counter_value sh < target /\
       exists d, sh' = mkShared (counter_value sh + 1) (Written d :: files_created sh)
                 /\ ws' = WCheck)
   \/ (counter_value sh < target /\
       sh' = mkShared (counter_value sh) (PartiallyWritten :: files_created sh)
       /\ ws' = WRaised)).
Proof.
  unfold worker_step. intros H.
  destruct ws, l; try discriminate H.
  - destruct (target <=? counter_value sh) eqn:E; injection H as <- <-;
      split; auto; left; split; auto; intros Hr; try discriminate; lia.
  - destruct (request_content r); injection H as <- <-;
      split; auto; left; split; auto; discriminate.
  - destruct (decode_validate schema content); injection H as <- <-;
      split; auto; left; split; auto; discriminate.
  - destruct (counter_value sh <? target) eqn:E.
    + apply Z.ltb_lt in E. destruct p; injection H as <- <-; split; try reflexivity.
      * right; left. eauto.
      * left. split; [reflexivity | discriminate].
      * right; right. auto.
    + apply Z.ltb_ge in E. injection H as <- <-. split; [reflexivity|].
      left. split; [reflexivity | intros _; exact E].
Qed.

Lemma step_preserves_inv existing target schema w i l w' :
  pool_inv existing target w ->
  step target schema w i l = Some w' ->
  pool_inv existing target w'.
Proof.
  intros Hinv Hs. unfold step in Hs.
  destruct (w_workers w !! i) as [ws|] eqn:Hi; [|discriminate].
  destruct (worker_step target schema (w_shared w) ws l) as [[sh' ws']|] eqn:Hw;
    [|discriminate].
  injection Hs as <-.
  apply worker_step_cases in Hw as [Hnr Hc].
  pose proof (count_raised_insert _ _ _ ws' Hi) as Hcr.
  rewrite Hnr in Hcr.
  pose proof (lookup_lt_Some _ _ _ Hi) as Hlen.
  destruct Hinv as [H1 H2 H3 H4 H5].
  destruct Hc as [[-> Hret] | [[Hlt [d [-> ->]]] | [Hlt [-> ->]]]];
    constructor; simpl in *; try lia.
  - destruct (is_raised ws'); lia.
  - intros j Hj. destruct (decide (i = j)) as [->|Hne].
    + rewrite list_lookup_insert_eq in Hj by exact Hlen.
      injection Hj as Hj. auto.
    + rewrite list_lookup_insert_ne in Hj by exact Hne. eauto.
  - intros j Hj. destruct (decide (i = j)) as [->|Hne].
    + rewrite list_lookup_insert_eq in Hj by exact Hlen. discriminate.
    + rewrite list_lookup_insert_ne in Hj by exact Hne.
      specialize (H5 j Hj). lia.
  - intros j Hj. destruct (decide (i = j)) as [->|Hne].
    + rewrite list_lookup_insert_eq in Hj by exact Hlen. discriminate.
    + rewrite list_lookup_insert_ne in Hj by exact Hne. eauto.
Qed.

Lemma run_preserves_inv existing target schema sched : forall w w',
  pool_inv existing target w ->
  run target schema w sched = Some w' ->
  pool_inv existing target w'.
Proof.
  induction sched as [|[i l] sched IH]; simpl; intros w w' Hinv Hrun.
  - injection Hrun as <-. exact Hinv.
  - destruct (step target schema w i l) as [w1|] eqn:Hs; [|discriminate].
    eapply IH; [|exact Hrun]. eapply step_preserves_inv; eauto.
Qed.

Lemma launch_inv (existing : nat) (total : Z) w0 :
  main_launch existing total = Pool w0 ->
  pool_inv (Z.of_nat existing) total w0.
Proof.
  unfold main_launch. destruct (total <=? Z.of_nat existing) eqn:E; [discriminate|].
  apply Z.leb_gt in E. intros H. injection H as <-.
  constructor; simpl; try lia.
  - induction (Z.to_nat _); simpl; lia.
  - intros j Hj. apply lookup_replicate in Hj as [Hj _]. discriminate.
Qed.

Lemma reachable_inv (existing : nat) (total : Z) schema w0 sched w :
  main_launch existing total = Pool w0 ->
  run total schema w0 sched = Some w ->
  pool_inv (Z.of_nat existing) total w.
Proof.
  intros Hl Hr. eapply run_preserves_inv; [|exact Hr]. now apply launch_inv.
Qed.

Lemma run_workers_length target schema sched : forall w w',
  run target schema w sched = Some w' ->
  length (w_workers w') = length (w_workers w).
Proof.
  induction sched as [|[i l] sched IH]; simpl; intros w w' Hrun.
  - now injection Hrun as <-.
  - destruct (step target schema w i l) as [w1|] eqn:Hs; [|discriminate].
    rewrite (IH _ _ Hrun). unfold step in Hs.
    destruct (w_workers w !! i); [|discriminate].
    destruct (worker_step _ _ _ _ _) as [[sh' ws']|]; [|discriminate].
    injection Hs as <-. simpl. apply length_insert.
Qed.

(* ------------------------------------------------------------------ *)
(** ** The shared counter and the files of a run *)

(** C1 (amended). Along every interleaving of the threads, the counter
    stays between the number of files found at launch and the target,
    equals that number plus the files completely written by the run, and
    each further step leaves it unchanged or adds exactly 1 together with
    one completely written file. The files created by the run are at most
    [total - existing] plus the number of threads ended by an exception
    (a [json.dump] that raises leaves a partially written file). *)
Theorem counter_bounds_and_files (existing : nat) (total : Z) schema w0 sched w :
  main_launch existing total = Pool w0 ->
  run total schema w0 sched = Some w ->
  0 <= Z.of_nat existing <= counter_value (w_shared w) /\
  counter_value (w_shared w) <= total /\
  counter_value (w_shared w) = Z.of_nat existing + count_written (files_created (w_shared w)) /\
  Z.of_nat (length (files_created (w_shared w)))
    <= total - Z.of_nat existing + count_raised (w_workers w) /\
  (forall i l w', step total schema w i l = Some w' ->
     (counter_value (w_shared w') = counter_value (w_shared w) /\
      files_created (w_shared w') = files_created (w_shared w))
     \/ (counter_value (w_shared w') = counter_value (w_shared w) + 1 /\
         exists d, files_created (w_shared w') = Written d :: files_created (w_shared w))
     \/ (counter_value (w_shared w') = counter_value (w_shared w) /\
         files_created (w_shared w') = PartiallyWritten :: files_created (w_shared w) /\
         w_workers w' !! i = Some WRaised)).
Proof.
  intros Hl Hr.
  destruct (reachable_inv _ _ _ _ _ _ Hl Hr) as [H1 H2 H3 H4 H5].
  rewrite length_files.
  split; [lia|]. split; [lia|]. split; [lia|]. split; [lia|].
  intros i l w' Hs. unfold step in Hs.
  destruct (w_workers w !! i) as [ws|] eqn:Hi; [|discriminate].
  destruct (worker_step total schema (w_shared w) ws l) as [[sh' ws']|] eqn:Hw;
    [|discriminate].
  injection Hs as <-. simpl.
  apply worker_step_cases in Hw as [_ Hc].
  destruct Hc as [[-> _] | [[_ [d [-> ->]]] | [_ [-> ->]]]]; simpl.
  - left. auto.
  - right; left. eauto.
  - right; right. split; [reflexivity|]. split; [reflexivity|].
    apply list_lookup_insert_eq. eapply lookup_lt_Some; eauto.
Qed.

Lemma counter_bounds_and_files_witness :
  exists w,
  run 2 example_schema (mkWorld (mkShared 0 []) [WCheck; WCheck]) (attempt 0 PersistOk)
    = Some w /\
  (0 <= Z.of_nat 0 <= counter_value (w_shared w) /\
   counter_value (w_shared w) <= 2 /\
   counter_value (w_shared w) = Z.of_nat 0 + count_written (files_created (w_shared w)) /\
   Z.of_nat (length (files_created (w_shared w)))
     <= 2 - Z.of_nat 0 + count_raised (w_workers w) /\
   (forall i l w', step 2 example_schema w i l = Some w' ->
      (counter_value (w_shared w') = counter_value (w_shared w) /\
       files_created (w_shared w') = files_created (w_shared w))
      \/ (counter_value (w_shared w') = counter_value (w_shared w) + 1 /\
          exists d, files_created (w_shared w') = Written d :: files_created (w_shared w))
      \/ (counter_value (w_shared w') = counter_value (w_shared w) /\
          files_created (w_shared w') = PartiallyWritten :: files_created (w_shared w) /\
          w_workers w' !! i = Some WRaised))).
Proof.
  exists (mkWorld (mkShared 1 [Written (JObj [(txt "x", JInt 5)])]) [WCheck; WCheck]).
  split; [vm_compute; reflexivity|].
  apply (counter_bounds_and_files 0 2 example_schema
           (mkWorld (mkShared 0 []) [WCheck; WCheck]) (attempt 0 PersistOk)).
  - reflexivity.
  - vm_compute. reflexivity.
Defined.

(** C1 (counterexample). With two files to write and two threads, a
    [json.dump] that raises in thread 0 leaves a partial file, thread 1
    then writes two files: three files for a remaining work of two. *)
Lemma files_exceed_remaining_work :
  ~ (forall (existing : nat) (total : Z) schema w0 sched w,
       main_launch existing total = Pool w0 ->
       run total schema w0 sched = Some w ->
       Z.of_nat (length (files_created (w_shared w))) <= total - Z.of_nat existing).
Proof.
  intros H.
  specialize (H 0%nat 2 example_schema _
                (attempt 0 DumpFails ++ attempt 1 PersistOk ++ attempt 1 PersistOk)
                _ eq_refl eq_refl).
  vm_compute in H. now apply H.
Qed.

(* ------------------------------------------------------------------ *)
(** ** Reaching the target *)

(** C2 (amended). When fewer files than the target exist at launch and
    every thread of the run has returned normally, the counter equals the
    target. *)
Theorem returned_run_reaches_target (existing : nat) (total : Z) schema w0 sched w
    (Hlaunch : main_launch existing total = Pool w0)
    (Hrun : run total schema w0 sched = Some w)
    (Hdone : all_returned w) :
  counter_value (w_shared w) = total.
Proof.
  destruct (reachable_inv _ _ _ _ _ _ Hlaunch Hrun) as [_ H2 _ _ H5].
  pose proof (run_workers_length _ _ _ _ _ Hrun) as Hlen.
  revert Hlaunch Hlen. unfold main_launch.
  destruct (total <=? Z.of_nat existing) eqn:E; [discriminate|].
  apply Z.leb_gt in E. intros Hl Hlen. injection Hl as <-.
  simpl in Hlen. rewrite length_replicate in Hlen.
  destruct (w_workers w) as [|ws rest] eqn:Hws.
  - simpl in Hlen. unfold MAX_THREADS in Hlen. lia.
  - unfold all_returned in Hdone. rewrite Hws in Hdone.
    apply Forall_cons in Hdone as [-> _].
    specialize (H5 0%nat eq_refl). lia.
Qed.

Lemma returned_run_reaches_target_witness :
  main_launch 0 1 = Pool (mkWorld (mkShared 0 []) [WCheck]) /\
  run 1 example_schema (mkWorld (mkShared 0 []) [WCheck])
      (attempt 0 PersistOk ++ [(0%nat, LInternal)])
    = Some (mkWorld (mkShared 1 [Written (JObj [(txt "x", JInt 5)])]) [WReturned]) /\
  counter_value (w_shared
    (mkWorld (mkShared 1 [Written (JObj [(txt "x", JInt 5)])]) [WReturned])) = 1.
Proof.
  split; [reflexivity|]. split; [vm_compute; reflexivity|].
  apply (returned_run_reaches_target 0 1 example_schema
           (mkWorld (mkShared 0 []) [WCheck]) (attempt 0 PersistOk ++ [(0%nat, LInternal)])).
  - reflexivity.
  - vm_compute. reflexivity.
  - repeat constructor.
Defined.

(** C2 (counterexample). One file to write, one thread: it receives a
    valid candidate, its [json.dump] raises, and the thread ends; every
    thread has terminated and a valid candidate was produced, yet the
    counter is 0, not the target 1. *)
Lemma target_missed_after_write_error :
  ~ (forall (existing : nat) (total : Z) schema w0 sched w,
       main_launch existing total = Pool w0 ->
       run total schema w0 sched = Some w ->
       total - Z.of_nat existing <= valid_candidates schema sched ->
       all_terminated w ->
       counter_value (w_shared w) = total).
Proof.
  intros H.
  specialize (H 0%nat 1 example_schema _ (attempt 0 DumpFails) _ eq_refl eq_refl).
  vm_compute in H.
  assert (Hc : 0 = 1) by (apply H; [discriminate | repeat constructor]).
  discriminate Hc.
Qed.

(* ------------------------------------------------------------------ *)
(** ** Failures inside a worker *)



(* ------------------------------------------------------------------ *)
(** ** Launching the pool *)

(** C4. With at least [total] files present, [main] returns at once with
    no thread and the count [existing]; otherwise it starts
    [min(MAX_THREADS, total - existing)] threads, all at the target
    check, over one shared counter holding [existing] and no new file. *)
Theorem launch_threads (existing : nat) (total : Z) :
  (total <= Z.of_nat existing ->
     main_launch existing total = NothingToDo (Z.of_nat existing)) /\
  (Z.of_nat existing < total ->
     exists w0, main_launch existing total = Pool w0 /\
       Z.of_nat (length (w_workers w0)) = Z.min MAX_THREADS (total - Z.of_nat existing) /\
       Forall (fun ws => ws = WCheck) (w_workers w0) /\
       w_shared w0 = mkShared (Z.of_nat existing) []).
Proof.
  unfold main_launch. split; intros H.
  - apply Z.leb_le in H. now rewrite H.
  - assert (E : (total <=? Z.of_nat existing) = false) by (apply Z.leb_gt; lia).
    rewrite E. eexists. split; [reflexivity|]. simpl.
    rewrite length_replicate. split; [unfold MAX_THREADS; lia|].
    split; [apply Forall_replicate; reflexivity | reflexivity].
Qed.

(* ------------------------------------------------------------------ *)
(** ** Decoding before validating *)

(** C5. With the schema [{"type":"object","required":["x"],
    "properties":{"x":{"type":"integer"}}}], the content [{"x": 5}]
    passes, [{"y": 5}] is a schema violation, and [not json] is a decode
    error whatever the validator; in every iteration a content that does
    not decode never reaches the validator: a [JSONDecodeError] is a
    decode error, and another exception of [json.loads] escapes. *)
Theorem example_schema_stages :
  decode_validate example_schema (txt "{`x`: 5}") = SValid (JObj [(txt "x", JInt 5)]) /\
  decode_validate example_schema (txt "{`y`: 5}") = SSchemaViolation /\
  (forall validator,
     decode_validate_with validator example_schema (txt "not json") = SDecodeError) /\
  (forall validator schema content, json_loads content = LoadsDecodeError ->
     decode_validate_with validator schema content = SDecodeError) /\
  (forall validator schema content, json_loads content = LoadsRaise ->
     decode_validate_with validator schema content = SLoadsRaise).
Proof.
  split; [vm_compute; reflexivity|].
  split; [vm_compute; reflexivity|].
  split; [|split].
  - intros validator. reflexivity.
  - intros validator schema content H. unfold decode_validate_with. now rewrite H.
  - intros validator schema content H. unfold decode_validate_with. now rewrite H.
Qed.

(* ------------------------------------------------------------------ *)
(** ** The generation client *)

(** C8 (amended). A connection error, a 4xx or 5xx status, a body that
    is not JSON (or whose decoding raises), or an envelope without a string
    [choices[0].message.content] make the request fail; a text returned
    is that content stripped, never a substitute; the request step of a
    worker consumes one response and goes to the target check or to
    decoding, never straight to another request. *)
Theorem generation_client_paths :
  request_content ConnError = None /\
  (forall status body, raise_for_status status = true ->
     request_content (HttpResponse status body) = None) /\
  (forall status body, (forall v, json_loads_in LOADS_ROOM_REQUESTS body <> Loaded v) ->
     request_content (HttpResponse status body) = None) /\
  (forall status body c, request_content (HttpResponse status body) = Some c ->
     raise_for_status status = false /\
     exists env ch rest m s,
       json_loads_in LOADS_ROOM_REQUESTS body = Loaded (JObj env) /\
       dict_get (txt "choices") env = Some (JArr (JObj ch :: rest)) /\
       dict_get (txt "message") ch = Some (JObj m) /\
       dict_get (txt "content") m = Some (JStr s) /\ c = strip s) /\
  (forall target schema sh r sh' ws',
     worker_step target schema sh WRequest (LResponse r) = Some (sh', ws') ->
     sh' = sh /\ (ws' = WCheck \/ exists c, ws' = WDecode c)).
Proof.
  split; [reflexivity|]. split; [|split; [|split]].
  - intros status body H. unfold request_content, call_openai. now rewrite H.
  - intros status body H. unfold request_content, call_openai.
    destruct (raise_for_status status); [reflexivity|].
    destruct (json_loads_in LOADS_ROOM_REQUESTS body) as [v| |]; [|reflexivity..].
    exfalso. exact (H v eq_refl).
  - intros status body c. unfold request_content, call_openai.
    destruct (raise_for_status status); [discriminate|].
    destruct (json_loads_in LOADS_ROOM_REQUESTS body) as [[]| |] eqn:Hb; try discriminate.
    unfold extract_content.
    destruct (dict_get (txt "choices") kvs) as [[| | | | |[|[]]|]|] eqn:Hch;
      try discriminate.
    destruct (dict_get (txt "message") kvs0) as [[| | | | | |]|] eqn:Hm;
      try discriminate.
    destruct (dict_get (txt "content") kvs1) as [[| | | | | |]|] eqn:Hc; try discriminate.
    intros H. injection H as <-. split; [reflexivity|].
    do 5 eexists. repeat split; eauto.
  - intros target schema sh r sh' ws'. simpl.
    destruct (request_content r); intros H; injection H as <- <-; eauto.
Qed.

(** C8 (counterexample). [raise_for_status] passes a 300 response, so a
    300 response carrying a well-formed envelope yields its content. *)
Lemma status_300_not_an_error :
  ~ (forall status body, ~ (200 <= status < 300) ->
       request_content (HttpResponse status body) = None).
Proof.
  intros H.
  assert (Hc : request_content (HttpResponse 300
                 (txt "{`choices`:[{`message`:{`content`:`{\`x\`: 5}`}}]}")) = None)
    by (apply H; lia).
  vm_compute in Hc. discriminate Hc.
Qed.

(* ------------------------------------------------------------------ *)
(** ** Files to traces *)

Lemma load_json_traces_length files :
  (length (load_json_traces files) <= length files)%nat.
Proof.
  induction files as [|[stem contents] files IH]; simpl; [lia|].
  destruct (file_json contents) as [data|]; [|lia].
  destruct (events_of data); simpl; lia.
Qed.

(** C6 (amended). A file yields one trace [(stem, events, cluster)] when
    it loads and decodes to a dict whose [events] is a list, or to a
    list; a file that cannot be read or decoded, or decodes to anything
    else (a dict without an [events] list included), is skipped; so no
    file yields more than one trace. *)
Theorem load_traces_per_file stem contents rest :
  (forall data evs, file_json contents = Some data -> events_of data = Some evs ->
     load_json_traces ((stem, contents) :: rest)
     = (stem, evs, cluster_of data) :: load_json_traces rest) /\
  (file_json contents = None \/
   (exists data, file_json contents = Some data /\ events_of data = None) ->
     load_json_traces ((stem, contents) :: rest) = load_json_traces rest) /\
  (forall data evs, events_of data = Some evs <->
     (exists kvs, data = JObj kvs /\ dict_get (txt "events") kvs = Some (JArr evs))
     \/ data = JArr evs) /\
  (forall files, (length (load_json_traces files) <= length files)%nat).
Proof.
  split; [|split; [|split]].
  - intros data evs Hf He. simpl. now rewrite Hf, He.
  - intros [Hf | [data [Hf He]]]; simpl; rewrite Hf; [reflexivity|]. now rewrite He.
  - intros data evs. split.
    + intros H. unfold events_of in H.
      destruct data as [| | | | |l|kvs]; try discriminate H.
      * injection H as ->. now right.
      * destruct (dict_get (txt "events") kvs) as [[| | | | |l|]|] eqn:E;
          try discriminate H.
        injection H as ->. left. eauto.
    + intros [[kvs [-> E]] | ->]; unfold events_of; [now rewrite E | reflexivity].
  - apply load_json_traces_length.
Qed.

(** C6 (counterexample). The file [{"cluster": 1}] decodes to a dict
    without an [events] list and yields no trace. *)
Lemma object_without_events_skipped :
  ~ (forall stem contents data,
       file_json contents = Some data -> (exists kvs, data = JObj kvs) ->
       length (load_json_traces [(stem, contents)]) = 1%nat).
Proof.
  intros H.
  assert (Hl : length (load_json_traces [(txt "c", Some (txt "{`cluster`: 1}"))]) = 1%nat).
  { apply (H _ _ (JObj [(txt "cluster", JInt 1)])); [reflexivity | eauto]. }
  vm_compute in Hl. discriminate Hl.
Qed.

(* ------------------------------------------------------------------ *)
(** ** Events *)

(** C7. The file [{"events":[{"activity":"A","timestamp":
    "2024-01-01T00:00:00+00:00"}]}] gives one trace named by the file's
    stem, with one event whose [concept:name] is ["A"] and whose
    [time:timestamp] is the aware datetime 2024-01-01 00:00:00 UTC. *)
Theorem activity_timestamp_remap (stem : text) :
  build_event_log fromisoformat
    (load_json_traces
       [(stem, Some (txt "{`events`:[{`activity`:`A`,`timestamp`:`2024-01-01T00:00:00+00:00`}]}"))])
  = XOk [mkTrace [(txt "concept:name", PJson (JStr stem))]
           [[(txt "concept:name", PJson (JStr (txt "A")));
             (txt "time:timestamp", PDatetime (mkDatetime 2024 1 1 0 0 0 0 (Some 0)))]]].
Proof. vm_compute. reflexivity. Qed.










(* ------------------------------------------------------------------ *)
(** ** Further properties of the thread pool *)

Lemma step_inv target schema w i l w' :
  step target schema w i l = Some w' ->
  exists ws sh' ws', w_workers w !! i = Some ws /\
    worker_step target schema (w_shared w) ws l = Some (sh', ws') /\
    w' = mkWorld sh' (<[i := ws']> (w_workers w)).
Proof.
  unfold step. destruct (w_workers w !! i) as [ws|] eqn:Hi; [|discriminate].
  destruct (worker_step _ _ _ ws l) as [[sh' ws']|] eqn:Hw; [|discriminate].
  intros H. injection H as <-. eauto 10.
Qed.

Lemma provenance_step target schema w i l w' :
  Forall (thread_provenance schema) (w_workers w) ->
  Forall (artifact_provenance schema) (files_created (w_shared w)) ->
  step target schema w i l = Some w' ->
  Forall (thread_provenance schema) (w_workers w') /\
  Forall (artifact_provenance schema) (files_created (w_shared w')).
Proof.
  intros Ht Ha Hs. apply step_inv in Hs as (ws & sh' & ws' & Hi & Hw & ->). simpl.
  pose proof (Forall_lookup_1 _ _ _ _ Ht Hi) as Hp.
  unfold worker_step in Hw.
  destruct ws, l; try discriminate Hw.
  - destruct (target <=? counter_value (w_shared w)); injection Hw as <- <-;
      split; auto; apply Forall_insert; auto; exact I.
  - destruct (request_content r) as [c|] eqn:Hr; injection Hw as <- <-;
      split; auto; apply Forall_insert; auto; first [exists r; exact Hr | exact I].
  - destruct (decode_validate schema content) eqn:Hd; injection Hw as <- <-;
      split; auto; apply Forall_insert; auto; try exact I.
    destruct Hp as [r Hr]. unfold decode_validate, decode_validate_with in Hd.
    destruct (json_loads content) as [d| |] eqn:Hl; [|discriminate..].
    destruct (validate d schema) eqn:Hv; try discriminate.
    injection Hd as <-. exists r, content. auto.
  - destruct (counter_value (w_shared w) <? target);
      [destruct p|]; injection Hw as <- <-; simpl; split;
      try (apply Forall_insert; auto; exact I); auto;
      constructor; auto; exact I.
Qed.

Lemma provenance_run target schema sched : forall w w',
  Forall (thread_provenance schema) (w_workers w) ->
  Forall (artifact_provenance schema) (files_created (w_shared w)) ->
  run target schema w sched = Some w' ->
  Forall (artifact_provenance schema) (files_created (w_shared w')).
Proof.
  induction sched as [|[i l] sched IH]; simpl; intros w w' Ht Ha Hrun.
  - injection Hrun as <-. exact Ha.
  - destruct (step target schema w i l) as [w1|] eqn:Hs; [|discriminate].
    destruct (provenance_step _ _ _ _ _ _ Ht Ha Hs) as [Ht1 Ha1].
    exact (IH _ _ Ht1 Ha1 Hrun).
Qed.

(** X1. Every file a run writes completely holds a value that
    [json.loads] decoded from the content of some response of the
    completion API and that passed [validate] against the schema. *)
Theorem written_files_validated (existing : nat) (total : Z) schema w0 sched w d :
  main_launch existing total = Pool w0 ->
  run total schema w0 sched = Some w ->
  In (Written d) (files_created (w_shared w)) ->
  exists r c, request_content r = Some c /\ json_loads c = Loaded d /\
              validate d schema = VOk.
Proof.
  intros Hl Hr Hin.
  assert (Ht : Forall (thread_provenance schema) (w_workers w0) /\
               Forall (artifact_provenance schema) (files_created (w_shared w0))).
  { revert Hl. unfold main_launch. destruct (total <=? Z.of_nat existing); [discriminate|].
    intros H. injection H as <-. simpl. split; [|constructor].
    apply Forall_replicate. exact I. }
  destruct Ht as [Ht Ha].
  pose proof (provenance_run _ _ _ _ _ Ht Ha Hr) as Hw.
  rewrite List.Forall_forall in Hw. exact (Hw _ Hin).
Qed.

Lemma written_files_validated_witness :
  main_launch 0 1 = Pool (mkWorld (mkShared 0 []) [WCheck]) /\
  run 1 example_schema (mkWorld (mkShared 0 []) [WCheck]) (attempt 0 PersistOk)
    = Some (mkWorld (mkShared 1 [Written (JObj [(txt "x", JInt 5)])]) [WCheck]) /\
  In (Written (JObj [(txt "x", JInt 5)]))
     (files_created (w_shared (mkWorld (mkShared 1 [Written (JObj [(txt "x", JInt 5)])]) [WCheck]))) /\
  exists r c, request_content r = Some c /\ json_loads c = Loaded (JObj [(txt "x", JInt 5)]) /\
              validate (JObj [(txt "x", JInt 5)]) example_schema = VOk.
Proof.
  split; [reflexivity|]. split; [vm_compute; reflexivity|]. split; [left; reflexivity|].
  apply (written_files_validated 0 1 example_schema (mkWorld (mkShared 0 []) [WCheck])
           (attempt 0 PersistOk)
           (mkWorld (mkShared 1 [Written (JObj [(txt "x", JInt 5)])]) [WCheck])).
  - reflexivity.
  - vm_compute. reflexivity.
  - left. reflexivity.
Defined.

Lemma pending_steps_insert (l : list wstate) i x y :
  l !! i = Some x ->
  (pending_steps (<[i := y]> l) + steps_left x = pending_steps l + steps_left y)%nat.
Proof.
  revert i. induction l as [|a l IH]; intros [|i] H; simpl in *; try discriminate.
  - injection H as ->. lia.
  - specialize (IH i H). lia.
Qed.

Lemma pending_steps_bound l : (pending_steps l <= 3 * length l)%nat.
Proof. induction l as [|[] l IH]; simpl; lia. Qed.

Lemma worker_step_after_target target schema sh ws l sh' ws' :
  target <= counter_value sh ->
  worker_step target schema sh ws l = Some (sh', ws') ->
  sh' = sh /\ (steps_left ws' < steps_left ws)%nat.
Proof.
  intros Ht H. unfold worker_step in H.
  destruct ws, l; try discriminate H.
  - destruct (target <=? counter_value sh) eqn:E.
    + injection H as <- <-. simpl. split; [reflexivity | lia].
    + apply Z.leb_gt in E. lia.
  - destruct (request_content r); injection H as <- <-; simpl; split; auto; lia.
  - destruct (decode_validate schema content); injection H as <- <-; simpl; split; auto; lia.
  - destruct (counter_value sh <? target) eqn:E.
    + apply Z.ltb_lt in E. lia.
    + injection H as <- <-. simpl. split; [reflexivity | lia].
Qed.

(** X2. Once the counter has reached the target, no step changes the
    counter or the files any more, and every step uses up one of the at
    most three steps each thread has left: after the target is met the
    whole pool ends within [3 * threads] further steps, writing
    nothing. *)
Theorem target_met_run_winds_down target schema sched w w' :
  target <= counter_value (w_shared w) ->
  run target schema w sched = Some w' ->
  w_shared w' = w_shared w /\
  (length sched + pending_steps (w_workers w') <= pending_steps (w_workers w))%nat /\
  (pending_steps (w_workers w) <= 3 * length (w_workers w))%nat.
Proof.
  intros Ht Hr. split; [|split; [|apply pending_steps_bound]].
  - revert w Ht Hr. induction sched as [|[i l] sched IH]; simpl; intros w Ht Hr.
    + now injection Hr as <-.
    + destruct (step target schema w i l) as [w1|] eqn:Hs; [|discriminate].
      apply step_inv in Hs as (ws & sh' & ws' & Hi & Hw & ->).
      destruct (worker_step_after_target _ _ _ _ _ _ _ Ht Hw) as [-> _].
      exact (IH (mkWorld (w_shared w) (<[i := ws']> (w_workers w))) Ht Hr).
  - revert w Ht Hr. induction sched as [|[i l] sched IH]; simpl; intros w Ht Hr.
    + injection Hr as <-. lia.
    + destruct (step target schema w i l) as [w1|] eqn:Hs; [|discriminate].
      apply step_inv in Hs as (ws & sh' & ws' & Hi & Hw & ->).
      destruct (worker_step_after_target _ _ _ _ _ _ _ Ht Hw) as [-> Hlt].
      specialize (IH (mkWorld (w_shared w) (<[i := ws']> (w_workers w))) Ht Hr). simpl in IH.
      pose proof (pending_steps_insert _ _ _ ws' Hi). lia.
Qed.

Lemma target_met_run_winds_down_witness :
  1 <= counter_value (w_shared (mkWorld (mkShared 1 []) [WCheck; WRequest])) /\
  run 1 example_schema (mkWorld (mkShared 1 []) [WCheck; WRequest])
      [(1%nat, LResponse valid_answer); (0%nat, LInternal); (1%nat, LInternal);
       (1%nat, LPersist PersistOk)]
    = Some (mkWorld (mkShared 1 []) [WReturned; WReturned]) /\
  w_shared (mkWorld (mkShared 1 []) [WReturned; WReturned])
    = w_shared (mkWorld (mkShared 1 []) [WCheck; WRequest]) /\
  (length [(1%nat, LResponse valid_answer); (0%nat, LInternal); (1%nat, LInternal);
           (1%nat, LPersist PersistOk)]
   + pending_steps (w_workers (mkWorld (mkShared 1 []) [WReturned; WReturned]))
   <= pending_steps (w_workers (mkWorld (mkShared 1 []) [WCheck; WRequest])))%nat /\
  (pending_steps (w_workers (mkWorld (mkShared 1 []) [WCheck; WRequest]))
   <= 3 * length (w_workers (mkWorld (mkShared 1 []) [WCheck; WRequest])))%nat.
Proof.
  split; [simpl; lia|]. split; [vm_compute; reflexivity|].
  apply (target_met_run_winds_down 1 example_schema
           [(1%nat, LResponse valid_answer); (0%nat, LInternal); (1%nat, LInternal);
            (1%nat, LPersist PersistOk)]
           (mkWorld (mkShared 1 []) [WCheck; WRequest])).
  - simpl. lia.
  - vm_compute. reflexivity.
Defined.

Lemma count_written_app a b : count_written (a ++ b) = count_written a + count_written b.
Proof. induction a as [|[] a IH]; simpl; lia. Qed.

(** X4. Files are only ever added: along any interleaving, from any
    state, the files present before stay as they are, the counter never
    decreases, and it grows by exactly the number of files completely
    written in between. *)
Theorem run_files_append_only target schema sched w w' :
  run target schema w sched = Some w' ->
  counter_value (w_shared w) <= counter_value (w_shared w') /\
  exists fresh, files_created (w_shared w') = fresh ++ files_created (w_shared w) /\
    count_written fresh = counter_value (w_shared w') - counter_value (w_shared w).
Proof.
  revert w. induction sched as [|[i l] sched IH]; simpl; intros w Hr.
  - injection Hr as <-. split; [lia|]. exists []. split; [reflexivity|]. simpl. lia.
  - destruct (step target schema w i l) as [w1|] eqn:Hs; [|discriminate].
    apply step_inv in Hs as (ws & sh' & ws' & Hi & Hw & ->).
    destruct (IH (mkWorld sh' (<[i := ws']> (w_workers w))) Hr) as [Hle [fresh [Hf Hc]]].
    simpl in Hle, Hf, Hc.
    apply worker_step_cases in Hw as [_ Hcase].
    destruct Hcase as [[-> _] | [[_ [d [-> _]]] | [_ [-> _]]]]; simpl in *.
    + split; [lia|]. exists fresh. auto.
    + split; [lia|]. exists (fresh ++ [Written d]). rewrite <- app_assoc. split; [exact Hf|].
      rewrite count_written_app. simpl. lia.
    + split; [lia|]. exists (fresh ++ [PartiallyWritten]). rewrite <- app_assoc.
      split; [exact Hf|]. rewrite count_written_app. simpl. lia.
Qed.

Lemma run_files_append_only_witness :
  run 2 example_schema (mkWorld (mkShared 0 []) [WCheck])
      (attempt 0 PersistOk ++ attempt 0 PersistOk)
    = Some (mkWorld (mkShared 2 [Written (JObj [(txt "x", JInt 5)]);
                                 Written (JObj [(txt "x", JInt 5)])]) [WCheck]) /\
  counter_value (w_shared (mkWorld (mkShared 0 []) [WCheck]))
    <= counter_value (w_shared (mkWorld (mkShared 2 [Written (JObj [(txt "x", JInt 5)]);
                                 Written (JObj [(txt "x", JInt 5)])]) [WCheck])) /\
  exists fresh,
    files_created (w_shared (mkWorld (mkShared 2 [Written (JObj [(txt "x", JInt 5)]);
                                 Written (JObj [(txt "x", JInt 5)])]) [WCheck]))
    = fresh ++ files_created (w_shared (mkWorld (mkShared 0 []) [WCheck])) /\
    count_written fresh
    = counter_value (w_shared (mkWorld (mkShared 2 [Written (JObj [(txt "x", JInt 5)]);
                                 Written (JObj [(txt "x", JInt 5)])]) [WCheck]))
      - counter_value (w_shared (mkWorld (mkShared 0 []) [WCheck])).
Proof.
  split; [vm_compute; reflexivity|].
  apply (run_files_append_only 2 example_schema (attempt 0 PersistOk ++ attempt 0 PersistOk)).
  vm_compute. reflexivity.
Defined.

Lemma returned_counter_at_target (existing : nat) (total : Z) schema w0 sched w :
  main_launch existing total = Pool w0 ->
  run total schema w0 sched = Some w ->
  all_returned w ->
  counter_value (w_shared w) = total.
Proof.
  intros Hlaunch Hrun Hdone.
  destruct (reachable_inv _ _ _ _ _ _ Hlaunch Hrun) as [_ H2 _ _ H5].
  pose proof (run_workers_length _ _ _ _ _ Hrun) as Hlen.
  revert Hlaunch Hlen. unfold main_launch.
  destruct (total <=? Z.of_nat existing) eqn:E; [discriminate|].
  apply Z.leb_gt in E. intros Hl Hlen. injection Hl as <-.
  simpl in Hlen. rewrite length_replicate in Hlen.
  destruct (w_workers w) as [|ws rest] eqn:Hws.
  - simpl in Hlen. unfold MAX_THREADS in Hlen. lia.
  - unfold all_returned in Hdone. rewrite Hws in Hdone.
    apply Forall_cons in Hdone as [-> _].
    specialize (H5 0%nat eq_refl). lia.
Qed.

Lemma count_raised_returned l :
  Forall (fun ws => ws = WReturned) l -> count_raised l = 0.
Proof. induction 1 as [|x l -> _ IH]; simpl; lia. Qed.

Lemma count_partial_zero fs :
  count_partial fs <= 0 -> Forall (fun a => a <> PartiallyWritten) fs.
Proof.
  induction fs as [|[] fs IH]; simpl; intros H; constructor.
  - discriminate.
  - apply IH. lia.
  - pose proof (count_partial_nonneg fs). lia.
  - pose proof (count_partial_nonneg fs). apply IH. lia.
Qed.

(** X5. When every thread of a run has returned normally, the run has
    created exactly [total - existing] files, and every one of them is
    completely written. *)
Theorem returned_run_file_count (existing : nat) (total : Z) schema w0 sched w :
  main_launch existing total = Pool w0 ->
  run total schema w0 sched = Some w ->
  all_returned w ->
  Z.of_nat (length (files_created (w_shared w))) = total - Z.of_nat existing /\
  Forall (fun a => a <> PartiallyWritten) (files_created (w_shared w)).
Proof.
  intros Hl Hr Hd.
  pose proof (returned_counter_at_target _ _ _ _ _ _ Hl Hr Hd) as Hc.
  destruct (reachable_inv _ _ _ _ _ _ Hl Hr) as [_ _ H3 H4 _].
  rewrite (count_raised_returned _ Hd) in H4.
  pose proof (count_partial_nonneg (files_created (w_shared w))).
  split.
  - rewrite length_files. lia.
  - apply count_partial_zero. exact H4.
Qed.

Lemma returned_run_file_count_witness :
  main_launch 0 2 = Pool (mkWorld (mkShared 0 []) [WCheck; WCheck]) /\
  run 2 example_schema (mkWorld (mkShared 0 []) [WCheck; WCheck])
      (attempt 0 PersistOk ++ attempt 1 PersistOk ++ [(0%nat, LInternal); (1%nat, LInternal)])
    = Some (mkWorld (mkShared 2 [Written (JObj [(txt "x", JInt 5)]);
                                 Written (JObj [(txt "x", JInt 5)])]) [WReturned; WReturned]) /\
  all_returned (mkWorld (mkShared 2 [Written (JObj [(txt "x", JInt 5)]);
                                     Written (JObj [(txt "x", JInt 5)])]) [WReturned; WReturned]) /\
  Z.of_nat (length [Written (JObj [(txt "x", JInt 5)]); Written (JObj [(txt "x", JInt 5)])])
    = 2 - Z.of_nat 0 /\
  Forall (fun a => a <> PartiallyWritten)
    [Written (JObj [(txt "x", JInt 5)]); Written (JObj [(txt "x", JInt 5)])].
Proof.
  split; [reflexivity|]. split; [vm_compute; reflexivity|]. split; [repeat constructor|].
  apply (returned_run_file_count 0 2 example_schema (mkWorld (mkShared 0 []) [WCheck; WCheck])
           (attempt 0 PersistOk ++ attempt 1 PersistOk ++ [(0%nat, LInternal); (1%nat, LInternal)])
           (mkWorld (mkShared 2 [Written (JObj [(txt "x", JInt 5)]);
                                 Written (JObj [(txt "x", JInt 5)])]) [WReturned; WReturned])).
  - reflexivity.
  - vm_compute. reflexivity.
  - repeat constructor.
Defined.

(* ------------------------------------------------------------------ *)
(** ** Dict operations *)


Lemma text_eqb_false k k' : text_eqb k k' = false <-> k <> k'.
Proof. unfold text_eqb. apply bool_decide_eq_false. Qed.


Section DictLemmas.
Context {A : Type}.
Implicit Types (d : list (text * A)) (v : A).










End DictLemmas.







(* ------------------------------------------------------------------ *)
(** ** The event conversion of [build_event_log] *)



(* ------------------------------------------------------------------ *)
(** ** Timestamp strings *)

Lemma starts_with_app a b : starts_with a (a ++ b) = true.
Proof. induction a as [|c a IH]; simpl; [reflexivity|]. now rewrite Z.eqb_refl, IH. Qed.

Lemma ends_with_app suf p : ends_with suf (p ++ suf) = true.
Proof. unfold ends_with. rewrite rev_app_distr. apply starts_with_app. Qed.

Lemma replace_Z_flat_map new fuel s :
  (length s < fuel)%nat ->
  replace_all_aux fuel [90] new s = flat_map (fun c => if c =? 90 then new else [c]) s.
Proof.
  revert fuel. induction s as [|c s IH]; intros [|f] Hf; simpl in Hf; try lia; [reflexivity|].
  cbn [replace_all_aux starts_with length drop flat_map].
  rewrite andb_true_r, (Z.eqb_sym 90 c).
  destruct (c =? 90); rewrite IH by lia; reflexivity.
Qed.

Lemma flat_map_no_Z new p :
  ~ In 90 p -> flat_map (fun c => if c =? 90 then new else [c]) p = p.
Proof.
  induction p as [|c p IH]; simpl; intros Hn; [reflexivity|].
  destruct (Z.eqb_spec c 90); [tauto|]. simpl. f_equal. apply IH. tauto.
Qed.

(** X7. Lines 72-76 turn a timestamp ending in [+00:00] or in [Z] into
    its prefix with every [Z] replaced by [+00:00], followed by
    [+00:00]; so a [+00:00] timestamp without any other [Z] reaches the
    parser unchanged. A timestamp with neither ending is passed on as it
    is. *)
Theorem timestamp_parse_str_cases p :
  timestamp_parse_str (p ++ txt "+00:00")
    = flat_map (fun c => if c =? 90 then txt "+00:00" else [c]) p ++ txt "+00:00" /\
  timestamp_parse_str (p ++ txt "Z")
    = flat_map (fun c => if c =? 90 then txt "+00:00" else [c]) p ++ txt "+00:00" /\
  (~ In 90 p -> timestamp_parse_str (p ++ txt "+00:00") = p ++ txt "+00:00") /\
  (ends_with (txt "+00:00") p = false -> ends_with (txt "Z") p = false ->
   timestamp_parse_str p = p).
Proof.
  assert (HZ : timestamp_parse_str (p ++ txt "Z")
               = flat_map (fun c => if c =? 90 then txt "+00:00" else [c]) p ++ txt "+00:00").
  { unfold timestamp_parse_str.
    assert (E : ends_with (txt "+00:00") (p ++ txt "Z") = false).
    { unfold ends_with. rewrite rev_app_distr. reflexivity. }
    rewrite E, ends_with_app. unfold str_replace.
    change (txt "Z") with [90]. rewrite replace_Z_flat_map by lia. rewrite flat_map_app. reflexivity. }
  assert (Hp : timestamp_parse_str (p ++ txt "+00:00") = timestamp_parse_str (p ++ txt "Z")).
  { unfold timestamp_parse_str at 1. rewrite ends_with_app.
    rewrite (take_app_length' p (txt "+00:00")) by (rewrite length_app; simpl; lia).
    fold (timestamp_parse_str (p ++ txt "Z")).
    unfold timestamp_parse_str.
    assert (E : ends_with (txt "+00:00") (p ++ txt "Z") = false).
    { unfold ends_with. rewrite rev_app_distr. reflexivity. }
    rewrite E. reflexivity. }
  split; [rewrite Hp; exact HZ|]. split; [exact HZ|]. split.
  - intros Hn. rewrite Hp, HZ, flat_map_no_Z by exact Hn. reflexivity.
  - intros H1 H2. unfold timestamp_parse_str. rewrite H1, H2. reflexivity.
Qed.

Lemma timestamp_parse_str_cases_witness :
  ~ In 90 (txt "2024-01-01T08:30:00") /\
  timestamp_parse_str (txt "2024-01-01T08:30:00" ++ txt "+00:00")
    = txt "2024-01-01T08:30:00" ++ txt "+00:00".
Proof.
  assert (H : ~ In 90 (txt "2024-01-01T08:30:00"))
    by (intros Hin; vm_compute in Hin;
        repeat (destruct Hin as [Hin|Hin]; [discriminate Hin|]); exact Hin).
  split; [exact H|].
  apply (proj1 (proj2 (proj2 (timestamp_parse_str_cases (txt "2024-01-01T08:30:00"))))).
  exact H.
Defined.

(* ------------------------------------------------------------------ *)
(** ** Reading back what [json.dump] wrote *)

(** Case analysis on the binary digits of a [Z] until every literal
    pattern of a match is decided. *)
Ltac zlit_cases c :=
  let p := fresh "p" in
  destruct c as [|p|p]; try reflexivity;
  do 8 (try (destruct p as [p|p|])); try reflexivity.

Lemma scan_str_plain c r acc :
  c <> 34 -> c <> 92 ->
  scan_str (c :: r) acc = if c <? 32 then None else scan_str r (c :: acc).
Proof.
  intros H1 H2. zlit_cases c; exfalso; first [apply H1; reflexivity | apply H2; reflexivity].
Qed.

Lemma hex_val_lower n : 0 <= n < 16 -> hex_val (hex_lower n) = Some n.
Proof.
  intros H. unfold hex_lower, hex_val, is_digit.
  destruct (Z.ltb_spec n 10).
  - destruct (Z.leb_spec 48 (48 + n)); [|lia].
    destruct (Z.leb_spec (48 + n) 57); [|lia]. simpl. f_equal. lia.
  - destruct (Z.leb_spec 48 (87 + n)); [|lia].
    destruct (Z.leb_spec (87 + n) 57); [lia|]. simpl.
    destruct (Z.leb_spec 97 (87 + n)); [|lia].
    destruct (Z.leb_spec (87 + n) 102); [|lia]. simpl. f_equal. lia.
Qed.

Lemma scan_escape c r acc :
  0 <= c -> scan_str (escape_char c ++ r) acc = scan_str r (c :: acc).
Proof.
  intros Hc. unfold escape_char.
  destruct (Z.eqb_spec c 92) as [->|H92]; [reflexivity|].
  destruct (Z.eqb_spec c 34) as [->|H34]; [reflexivity|].
  destruct (Z.eqb_spec c 8) as [->|_]; [reflexivity|].
  destruct (Z.eqb_spec c 12) as [->|_]; [reflexivity|].
  destruct (Z.eqb_spec c 10) as [->|_]; [reflexivity|].
  destruct (Z.eqb_spec c 13) as [->|_]; [reflexivity|].
  destruct (Z.eqb_spec c 9) as [->|_]; [reflexivity|].
  destruct (Z.ltb_spec c 32) as [Hlt|Hge].
  - cbn [app scan_str].
    assert (Hh : hex4 48 48 (hex_lower (c / 16)) (hex_lower (c mod 16)) = Some c).
    { assert (0 <= c / 16 < 16)
        by (split; [apply Z.div_pos | apply Z.div_lt_upper_bound]; lia).
      pose proof (Z.mod_pos_bound c 16 ltac:(lia)).
      pose proof (Z.div_mod c 16 ltac:(lia)).
      unfold hex4. rewrite !hex_val_lower by lia. simpl. f_equal. lia. }
    rewrite Hh. unfold is_high_surrogate.
    destruct (Z.leb_spec 55296 c); [lia|]. reflexivity.
  - cbn [app]. rewrite scan_str_plain by assumption.
    destruct (Z.ltb_spec c 32); [lia | reflexivity].
Qed.

Lemma scan_encoded s rest acc :
  Forall (fun c => 0 <= c) s ->
  scan_str (flat_map escape_char s ++ 34 :: rest) acc = Some (rev acc ++ s, rest).
Proof.
  revert acc. induction s as [|c s IH]; intros acc Hs; cbn [flat_map].
  - rewrite app_nil_r. reflexivity.
  - apply Forall_cons in Hs as [Hc Hs].
    rewrite <- app_assoc, scan_escape by exact Hc. rewrite IH by exact Hs.
    simpl. rewrite <- app_assoc. reflexivity.
Qed.

Lemma digits_val_snoc l x : digits_val (l ++ [x]) = digits_val l * 10 + (x - 48).
Proof. unfold digits_val. rewrite fold_left_app. reflexivity. Qed.

Lemma is_digit_range c : is_digit c = true <-> 48 <= c <= 57.
Proof.
  unfold is_digit. rewrite andb_true_iff, !Z.leb_le. reflexivity.
Qed.

Lemma decimal_aux_spec f : forall n acc, 0 <= n < 10 ^ Z.of_nat (S f) ->
  exists d0 D, decimal_aux (S f) n acc = d0 :: D ++ acc /\
    Forall (fun c => is_digit c = true) (d0 :: D) /\
    digits_val (d0 :: D) = n /\ (d0 = 48 -> n = 0 /\ D = []).
Proof.
  induction f as [|f IH]; intros n acc Hn.
  - cbn [decimal_aux]. simpl in Hn. destruct (Z.ltb_spec n 10); [|lia].
    exists (48 + n), []. split; [reflexivity|]. split.
    + constructor; [apply is_digit_range; lia | constructor].
    + split; [unfold digits_val; simpl; lia | intros; split; [lia | reflexivity]].
  - change (decimal_aux (S (S f)) n acc) with
      (if n <? 10 then (48 + n) :: acc
       else decimal_aux (S f) (n / 10) ((48 + n mod 10) :: acc)).
    destruct (Z.ltb_spec n 10).
    + exists (48 + n), []. split; [reflexivity|]. split.
      * constructor; [apply is_digit_range; lia | constructor].
      * split; [unfold digits_val; simpl; lia | intros; split; [lia | reflexivity]].
    + pose proof (Z.mod_pos_bound n 10 ltac:(lia)).
      pose proof (Z.div_mod n 10 ltac:(lia)).
      assert (Hq : 1 <= n / 10 < 10 ^ Z.of_nat (S f)).
      { rewrite (Nat2Z.inj_succ (S f)), Z.pow_succ_r in Hn by lia.
        split; [apply Z.div_le_lower_bound | apply Z.div_lt_upper_bound]; lia. }
      destruct (IH (n / 10) ((48 + n mod 10) :: acc)) as (d0 & D & Heq & Hdig & Hval & H48);
        [lia|].
      exists d0, (D ++ [48 + n mod 10]). rewrite Heq.
      split; [rewrite <- app_assoc; reflexivity|].
      change (d0 :: D ++ [48 + n mod 10]) with ((d0 :: D) ++ [48 + n mod 10]).
      split; [apply Forall_app; split; [exact Hdig | constructor; [apply is_digit_range; lia | constructor]]|].
      split; [rewrite digits_val_snoc, Hval; lia|].
      intros Hd. destruct (H48 Hd). lia.
Qed.

Lemma decimal_fuel n : 0 <= n -> n < 10 ^ Z.of_nat (S (Z.to_nat (Z.log2 n))).
Proof.
  intros Hn. rewrite Nat2Z.inj_succ, Z2Nat.id by apply Z.log2_nonneg.
  destruct (Z.eq_dec n 0) as [->|Hne]; [simpl; lia|].
  destruct (Z.log2_spec n ltac:(lia)) as [_ Hlt].
  eapply Z.lt_le_trans; [exact Hlt|].
  apply Z.pow_le_mono_l. lia.
Qed.

Lemma int_repr_shape z t : int_repr z = Some t -> exists d0 D,
  t = (if z <? 0 then [45] else []) ++ d0 :: D /\
  Forall (fun c => is_digit c = true) (d0 :: D) /\
  digits_val (d0 :: D) = Z.abs z /\ (d0 = 48 -> D = []) /\
  (length (d0 :: D) <= INT_MAX_STR_DIGITS)%nat.
Proof.
  unfold int_repr, decimal. intros H.
  destruct (decimal_aux_spec (Z.to_nat (Z.log2 (Z.abs z))) (Z.abs z) [])
    as (d0 & D & Heq & Hdig & Hval & H48).
  { split; [lia | apply decimal_fuel; lia]. }
  rewrite Heq, app_nil_r in H.
  destruct (Nat.leb_spec (length (d0 :: D)) INT_MAX_STR_DIGITS) as [Hl|_]; [|discriminate H].
  injection H as <-. exists d0, D.
  split; [destruct (z <? 0); reflexivity|]. split; [exact Hdig|].
  split; [exact Hval|]. split; [intros Hd; apply H48; exact Hd | exact Hl].
Qed.

Lemma take_digits_app ds rest :
  Forall (fun c => is_digit c = true) ds ->
  (forall c r, rest = c :: r -> is_digit c = false) ->
  take_digits (ds ++ rest) = (ds, rest).
Proof.
  intros Hds Hr. induction Hds as [|c ds Hc _ IH]; cbn [take_digits app].
  - destruct rest as [|c r]; [reflexivity|]. cbn [take_digits]. rewrite (Hr c r eq_refl). reflexivity.
  - rewrite Hc, IH. reflexivity.
Qed.

Ltac digit_cases c H :=
  apply is_digit_range in H;
  assert (c = 48 \/ c = 49 \/ c = 50 \/ c = 51 \/ c = 52 \/ c = 53 \/ c = 54 \/
          c = 55 \/ c = 56 \/ c = 57) by lia;
  repeat match goal with
         | Hor : _ \/ _ |- _ => destruct Hor as [->|Hor]
         | Heq : c = _ |- _ => subst c
         end.

Lemma parse_value_digit f room c t :
  is_digit c = true -> parse_value (S f) room (c :: t) = parse_number (c :: t).
Proof. intros H. digit_cases c H; reflexivity. Qed.

Lemma parse_value_minus f room c t :
  is_digit c = true -> parse_value (S f) room (45 :: c :: t) = parse_number (45 :: c :: t).
Proof. intros H. digit_cases c H; reflexivity. Qed.

Lemma parse_number_digits (neg : bool) d0 D rest :
  Forall (fun c => is_digit c = true) (d0 :: D) -> (d0 = 48 -> D = []) -> value_end rest ->
  (length (d0 :: D) <= INT_MAX_STR_DIGITS)%nat ->
  parse_number ((if neg then [45] else []) ++ d0 :: D ++ rest)
  = Scanned (JInt (if neg then - digits_val (d0 :: D) else digits_val (d0 :: D))) rest.
Proof.
  intros Hdig H48 Hend Hlen. apply Nat.leb_le in Hlen.
  assert (Hr : forall c r, rest = c :: r -> is_digit c = false).
  { intros c r ->. destruct Hend as [Hn | [[r' Hr'] | [r' Hr']]];
      [discriminate | injection Hr' as -> _ | injection Hr' as -> _]; reflexivity. }
  pose proof Hdig as Hd0. apply Forall_cons in Hd0 as [Hd0 HD].
  assert (Htk : take_digits (d0 :: D ++ rest) = (d0 :: D, rest))
    by exact (take_digits_app (d0 :: D) rest Hdig Hr).
  destruct (Z.eq_dec d0 48) as [->|Hne].
  - rewrite (H48 eq_refl).
    destruct Hend as [-> | [[r ->] | [r ->]]]; destruct neg; reflexivity.
  - assert (Hd : 49 <= d0 <= 57) by (apply is_digit_range in Hd0; lia).
    revert Htk Hlen. clear H48 Hdig.
    assert (d0 = 49 \/ d0 = 50 \/ d0 = 51 \/ d0 = 52 \/ d0 = 53 \/ d0 = 54 \/
            d0 = 55 \/ d0 = 56 \/ d0 = 57) by lia.
    repeat match goal with
           | Hor : _ \/ _ |- _ => destruct Hor as [->|Hor]
           | Heq : d0 = _ |- _ => subst d0
           end;
      intros Htk Hlen; unfold parse_number;
      destruct neg; cbn -[take_digits digits_val INT_MAX_STR_DIGITS length]; rewrite Htk;
      destruct Hend as [-> | [[r ->] | [r ->]]];
      cbn -[digits_val INT_MAX_STR_DIGITS length];
      rewrite ?app_nil_r, ?Hlen; reflexivity.
Qed.

Lemma skip_ws_nonws c t : is_json_ws c = false -> skip_ws (c :: t) = c :: t.
Proof. intros H. cbn [skip_ws]. rewrite H. reflexivity. Qed.

Lemma skip_ws_indent l x : skip_ws (newline_indent l ++ x) = skip_ws x.
Proof.
  unfold newline_indent. cbn [app skip_ws].
  change (is_json_ws 10) with true. cbv iota.
  induction (2 * l)%nat as [|n IH]; [reflexivity|].
  cbn [repeat app skip_ws]. exact IH.
Qed.

Lemma join_items_cons sep e es :
  join_items sep (e :: es) = e ++ match es with [] => [] | _ => sep ++ join_items sep es end.
Proof. destruct es; [rewrite app_nil_r|]; reflexivity. Qed.

Lemma join_items_length sep es : (1 <= length sep)%nat ->
  (fold_right (fun e n => S (length e + n)) 0%nat es <= length (join_items sep es) + length sep)%nat.
Proof.
  intros Hs. induction es as [|e es IH]; [simpl; lia|].
  rewrite join_items_cons. destruct es as [|e' es'].
  - simpl. rewrite length_app. simpl. lia.
  - rewrite !length_app. cbn [fold_right] in *. lia.
Qed.

Lemma encode_all_Forall2 {A : Type} (enc : A -> option text) l es :
  encode_all enc l = Some es -> Forall2 (fun x e => enc x = Some e) l es.
Proof.
  revert es. induction l as [|x l IH]; intros es H; cbn [encode_all] in H.
  - injection H as <-. constructor.
  - destruct (enc x) as [e|] eqn:He; [|discriminate].
    destruct (encode_all enc l) as [es'|]; [|discriminate].
    injection H as <-. constructor; [exact He | apply IH; reflexivity].
Qed.

Lemma json_wf_arr l : json_wf (JArr l) <-> Forall json_wf l.
Proof.
  induction l as [|x l IH]; cbn [json_wf fold_right].
  - split; intros; [constructor | exact I].
  - rewrite Forall_cons. cbn [json_wf] in IH. rewrite IH. reflexivity.
Qed.

Lemma json_wf_obj kvs : json_wf (JObj kvs) <->
  NoDup (map fst kvs) /\
  Forall (fun kv => Forall (fun c => 0 <= c) (fst kv) /\ json_wf (snd kv)) kvs.
Proof.
  cbn [json_wf]. apply and_iff_compat_l.
  induction kvs as [|[k x] kvs IH]; cbn [fold_right].
  - split; intros; [constructor | exact I].
  - rewrite Forall_cons. rewrite IH. cbn [fst snd]. tauto.
Qed.

Lemma Forall2_sum_le (l : list json) (es : list text) :
  Forall2 (fun x e => jsize x <= length e)%nat l es ->
  (fold_right (fun x n => S (jsize x + n)) 0%nat l
   <= fold_right (fun e n => S (length e + n)) 0%nat es)%nat.
Proof. induction 1; cbn [fold_right]; lia. Qed.

Lemma skip_ws_decodes v e x : decodes_back v e -> skip_ws (e ++ x) = e ++ x.
Proof.
  intros (_ & (c & t' & -> & Hc & _) & _). apply skip_ws_nonws. exact Hc.
Qed.

Lemma skip_ws_join v e sep es x :
  decodes_back v e -> skip_ws (join_items sep (e :: es) ++ x) = join_items sep (e :: es) ++ x.
Proof.
  intros Hv. rewrite join_items_cons, <- app_assoc. apply (skip_ws_decodes _ _ _ Hv).
Qed.

Ltac leb_cases :=
  repeat match goal with
         | |- context [(?a <=? ?b)%nat] => destruct (Nat.leb_spec a b)
         end; try lia.

Lemma parse_elems_encoded L M x l es acc F room rest :
  Forall2 decodes_back (x :: l) es ->
  (fold_right (fun y n => S (jsize y + n)) 0%nat (x :: l) <= F)%nat ->
  parse_elems F room (join_items (44 :: newline_indent L) es ++ newline_indent M ++ 93 :: rest) acc
  = if (fold_right (fun y n => Nat.max (jdepth y) n) 0%nat (x :: l) <=? room)%nat
    then Scanned (JArr (rev acc ++ x :: l)) rest else ScanRaise.
Proof.
  revert x es acc F. induction l as [|y l IH]; intros x es acc F Hes HF;
    inversion Hes as [|x' e l0 es' Hx Hrest]; subst;
    destruct F as [|F]; try (cbn [fold_right] in HF; lia); cbn [parse_elems];
    destruct Hx as (Hlen & Hc & Hdec).
  - inversion Hrest; subst. cbn [join_items].
    rewrite (Hdec F room (newline_indent M ++ 93 :: rest));
      [| cbn [fold_right] in HF; lia | right; right; eexists; reflexivity].
    unfold scan_expect. cbn [fold_right]. leb_cases; [|reflexivity].
    rewrite skip_ws_indent, skip_ws_nonws by reflexivity.
    cbn [rev]. reflexivity.
  - inversion Hrest as [|y' e' l1 es'' Hy Hrest']; subst.
    rewrite join_items_cons, <- !app_assoc. cbn [app].
    rewrite (Hdec F room _); [| cbn [fold_right] in HF; lia | right; left; eexists; reflexivity].
    unfold scan_expect.
    destruct (Nat.leb_spec (jdepth x) room) as [Hx|Hx];
      [| cbn [fold_right]; leb_cases; reflexivity].
    rewrite skip_ws_nonws by reflexivity. cbv iota.
    rewrite skip_ws_indent, (skip_ws_join _ _ _ _ _ Hy).
    rewrite (IH y _ (x :: acc) F); [| constructor; assumption | cbn [fold_right] in *; lia].
    cbn [rev fold_right]. rewrite <- app_assoc. cbn [app]. leb_cases; reflexivity.
Qed.

Lemma dict_set_fresh {A : Type} k (v : A) d : k ∉ map fst d -> dict_set k v d = d ++ [(k, v)].
Proof.
  induction d as [|[k' v'] d IH]; intros Hk; [reflexivity|].
  cbn [map fst] in Hk. rewrite elem_of_cons in Hk. cbn [dict_set].
  rewrite (proj2 (text_eqb_false k k')) by tauto. rewrite IH by tauto. reflexivity.
Qed.

Lemma skip_ws_space x : skip_ws (32 :: x) = skip_ws x.
Proof. reflexivity. Qed.

Lemma member_first kv item : member_back kv item -> exists t, item = 34 :: t.
Proof.
  intros (_ & e & -> & _). unfold encode_basestring. eexists. reflexivity.
Qed.

Lemma skip_ws_join_c sep c t es x : is_json_ws c = false ->
  skip_ws (join_items sep ((c :: t) :: es) ++ x) = join_items sep ((c :: t) :: es) ++ x.
Proof.
  intros Hc. rewrite join_items_cons, <- app_assoc. cbn [app]. apply skip_ws_nonws. exact Hc.
Qed.

Lemma parse_members_encoded L M k x kvs items acc F room rest :
  Forall2 member_back ((k, x) :: kvs) items ->
  NoDup (map fst (acc ++ (k, x) :: kvs)) ->
  (fold_right (fun '(_, y) n => S (jsize y + n)) 0%nat ((k, x) :: kvs) <= F)%nat ->
  parse_members F room
    (join_items (44 :: newline_indent L) items ++ newline_indent M ++ 125 :: rest) acc
  = if (fold_right (fun '(_, y) n => Nat.max (jdepth y) n) 0%nat ((k, x) :: kvs) <=? room)%nat
    then Scanned (JObj (acc ++ (k, x) :: kvs)) rest else ScanRaise.
Proof.
  revert k x items acc F. induction kvs as [|[k2 x2] kvs IH];
    intros k x items acc F Hit Hnd HF;
    inversion Hit as [|kv' it l0 items' Hkx Hrest]; subst;
    destruct F as [|F]; try (cbn [fold_right] in HF; lia);
    destruct Hkx as (Hk & e & -> & Hlen & Hc & Hdec); cbn [fst snd] in *;
    rewrite map_app in Hnd; cbn [map fst] in Hnd;
    assert (Hfresh : k ∉ map fst acc)
      by (intros Hin; apply NoDup_app in Hnd as (_ & Hdis & _);
          apply (Hdis k Hin); left).
  - inversion Hrest; subst. cbn [join_items].
    unfold encode_basestring. change (txt ": ") with [58; 32].
    rewrite <- !app_assoc. cbn [app parse_members]. rewrite <- ?app_assoc. cbn [app].
    rewrite scan_encoded by exact Hk. cbn [rev app].
    rewrite skip_ws_nonws by reflexivity. cbv iota.
    rewrite skip_ws_space, (skip_ws_decodes _ _ _ (conj Hlen (conj Hc Hdec))).
    rewrite (Hdec F room (newline_indent M ++ 125 :: rest));
      [| cbn [fold_right] in HF; lia | right; right; eexists; reflexivity].
    unfold scan_expect. cbn [fold_right]. leb_cases; [|reflexivity].
    rewrite skip_ws_indent, skip_ws_nonws by reflexivity. cbv iota.
    rewrite dict_set_fresh by exact Hfresh. reflexivity.
  - inversion Hrest as [|kv2 it2 l1 items'' Hkx2 Hrest']; subst.
    destruct (member_first _ _ Hkx2) as [t2 ->].
    rewrite join_items_cons. cbv iota.
    unfold encode_basestring. change (txt ": ") with [58; 32].
    rewrite <- !app_assoc. cbn [app parse_members]. rewrite <- ?app_assoc. cbn [app].
    rewrite scan_encoded by exact Hk. cbn [rev app].
    rewrite skip_ws_nonws by reflexivity. cbv iota.
    rewrite skip_ws_space, (skip_ws_decodes _ _ _ (conj Hlen (conj Hc Hdec))).
    rewrite (Hdec F room _); [| cbn [fold_right] in HF; lia | right; left; eexists; reflexivity].
    unfold scan_expect.
    destruct (Nat.leb_spec (jdepth x) room) as [Hx|Hx];
      [| cbn [fold_right]; leb_cases; reflexivity].
    rewrite skip_ws_nonws by reflexivity. cbv iota.
    rewrite skip_ws_indent, skip_ws_join_c by reflexivity.
    rewrite dict_set_fresh by exact Hfresh.
    rewrite (IH k2 x2 _ (acc ++ [(k, x)]) F); [| constructor; assumption
      | rewrite !map_app, <- app_assoc; cbn [map fst app]; exact Hnd
      | cbn [fold_right] in *; lia].
    cbn [fold_right]. rewrite <- ?app_assoc. cbn [app]. leb_cases; reflexivity.
Qed.

Lemma parse_value_arr f room r s :
  skip_ws r = s -> (exists c t, s = c :: t /\ c <> 93) ->
  parse_value (S f) (S room) (91 :: r) = parse_elems f room s [].
Proof.
  intros Hr (c & t & -> & Hc). cbn [parse_value]. rewrite Hr.
  zlit_cases c. exfalso. apply Hc. reflexivity.
Qed.

Lemma parse_value_obj f room r s :
  skip_ws r = s -> (exists c t, s = c :: t /\ c <> 125) ->
  parse_value (S f) (S room) (123 :: r) = parse_members f room s [].
Proof.
  intros Hr (c & t & -> & Hc). cbn [parse_value]. rewrite Hr.
  zlit_cases c. exfalso. apply Hc. reflexivity.
Qed.

Lemma jsize_arr l : jsize (JArr l) = S (fold_right (fun x n => S (jsize x + n)) 0%nat l).
Proof. reflexivity. Qed.

Lemma jsize_obj kvs :
  jsize (JObj kvs) = S (fold_right (fun '(_, x) n => S (jsize x + n)) 0%nat kvs).
Proof. reflexivity. Qed.

Lemma encode_value_arr L x l :
  encode_value L (JArr (x :: l)) =
  if (DUMP_ROOM <=? L)%nat then None else
  match encode_all (encode_value (S L)) (x :: l) with
  | Some es =>
      Some ([91] ++ newline_indent (S L) ++ join_items (44 :: newline_indent (S L)) es
            ++ newline_indent L ++ [93])
  | None => None
  end.
Proof. reflexivity. Qed.

Lemma encode_value_obj L kv kvs :
  encode_value L (JObj (kv :: kvs)) =
  if (DUMP_ROOM <=? L)%nat then None else
  match encode_all (fun '(k, x) =>
                      match encode_value (S L) x with
                      | Some e => Some (encode_basestring k ++ txt ": " ++ e)
                      | None => None
                      end) (kv :: kvs) with
  | Some es =>
      Some ([123] ++ newline_indent (S L) ++ join_items (44 :: newline_indent (S L)) es
            ++ newline_indent L ++ [125])
  | None => None
  end.
Proof. reflexivity. Qed.

Lemma elems_back L l es :
  Forall dump_ok l -> Forall json_wf l ->
  encode_all (encode_value L) l = Some es -> Forall2 decodes_back l es.
Proof.
  revert es. induction l as [|x l IH]; intros es Hok Hwf Henc; cbn [encode_all] in Henc.
  - injection Henc as <-. constructor.
  - apply Forall_cons in Hok as [Hx Hok]. apply Forall_cons in Hwf as [Hwx Hwf].
    destruct (encode_value L x) as [e|] eqn:He; [|discriminate].
    destruct (encode_all (encode_value L) l) as [es'|]; [|discriminate].
    injection Henc as <-. constructor; [exact (Hx L e Hwx He) | apply IH; auto].
Qed.

Lemma members_back L kvs items :
  Forall (fun kv => dump_ok (snd kv)) kvs ->
  Forall (fun kv => Forall (fun c => 0 <= c) (fst kv) /\ json_wf (snd kv)) kvs ->
  encode_all (fun '(k, x) =>
                match encode_value L x with
                | Some e => Some (encode_basestring k ++ txt ": " ++ e)
                | None => None
                end) kvs = Some items ->
  Forall2 member_back kvs items.
Proof.
  revert items. induction kvs as [|[k x] kvs IH]; intros items Hok Hwf Henc;
    cbn [encode_all] in Henc.
  - injection Henc as <-. constructor.
  - apply Forall_cons in Hok as [Hx Hok]. apply Forall_cons in Hwf as [[Hk Hwx] Hwf].
    cbn [fst snd] in *.
    destruct (encode_value L x) as [e|] eqn:He; [|discriminate].
    match type of Henc with
    | match ?a with _ => _ end = _ => destruct a as [items'|] eqn:Hall; [|discriminate]
    end.
    injection Henc as <-. constructor.
    + split; [exact Hk|]. exists e. split; [reflexivity | exact (Hx L e Hwx He)].
    + apply IH; auto.
Qed.

Lemma Forall2_sum_le_obj (kvs : list (text * json)) (items : list text) :
  Forall2 (fun kv it => jsize (snd kv) <= length it)%nat kvs items ->
  (fold_right (fun '(_, x) n => S (jsize x + n)) 0%nat kvs
   <= fold_right (fun e n => S (length e + n)) 0%nat items)%nat.
Proof. induction 1 as [|[k x] it kvs items H _ IH]; cbn [fold_right snd] in *; lia. Qed.

Lemma digit_not_ws c : is_digit c = true -> is_json_ws c = false /\ c <> 93.
Proof.
  intros H. apply is_digit_range in H. unfold is_json_ws.
  rewrite !(proj2 (Z.eqb_neq _ _)) by lia. split; [reflexivity | lia].
Qed.

Ltac some_inj H :=
  match type of H with
  | Some ?a = Some ?b => let E := fresh in assert (E : a = b) by congruence; subst b; clear H
  end.

Ltac literal_back :=
  split; [cbn; lia|];
  split; [do 2 eexists; split; [reflexivity|];
          split; [reflexivity | let H := fresh in intros H; vm_compute in H; discriminate H]
         | intros [|fuel] [|room] rest Hf _; [cbn in Hf; lia.. | reflexivity | reflexivity]].

Lemma dump_ok_all v : dump_ok v.
Proof.
  apply json_ind_nested.
  - intros level t _ Henc. injection Henc as <-. literal_back.
  - intros [] level t _ Henc; injection Henc as <-; literal_back.
  - intros z level t _ Henc. cbn [encode_value] in Henc.
    destruct (int_repr_shape z t Henc) as (d0 & D & -> & Hdig & Hval & H48 & Hn).
    pose proof Hdig as Hd0. apply Forall_cons in Hd0 as [Hd0 _].
    destruct (digit_not_ws d0 Hd0) as [Hws H93].
    split; [rewrite length_app; cbn [length jsize]; lia|]. split.
    + destruct (z <? 0); cbn [app]; do 2 eexists;
        (split; [reflexivity | split; [first [reflexivity | exact Hws] | first [discriminate | exact H93]]]).
    + intros [|f] room rest Hf Hend; [cbn in Hf; lia|].
      pose proof (parse_number_digits (z <? 0) d0 D rest Hdig H48 Hend Hn) as Hp.
      change (scan_expect room (JInt z) rest) with (Scanned (JInt z) rest).
      destruct (Z.ltb_spec z 0); cbn [app] in *.
      * rewrite parse_value_minus by exact Hd0. rewrite Hp, Hval. f_equal. f_equal. lia.
      * rewrite parse_value_digit by exact Hd0. rewrite Hp, Hval. f_equal. f_equal. lia.
  - intros [m e| | |] level t _ Henc; [discriminate | injection Henc as <- ..];
      literal_back.
  - intros s level t Hwf Henc. injection Henc as <-. cbn [json_wf] in Hwf.
    split; [unfold encode_basestring; cbn [length jsize]; lia|].
    split; [do 2 eexists; split; [reflexivity | split; [reflexivity | discriminate]]|].
    intros [|f] room rest Hf _; [cbn in Hf; lia|].
    unfold encode_basestring. cbn [app]. rewrite <- app_assoc. cbn [app parse_value].
    rewrite scan_encoded by exact Hwf. reflexivity.
  - intros [|x l] IHl level t Hwf Henc.
    + cbn [encode_value] in Henc. destruct (DUMP_ROOM <=? level)%nat; [discriminate|].
      injection Henc as <-. literal_back.
    + rewrite encode_value_arr in Henc. destruct (DUMP_ROOM <=? level)%nat; [discriminate|].
      destruct (encode_all (encode_value (S level)) (x :: l)) as [es|] eqn:Hall;
        [|discriminate].
      some_inj Henc.
      apply json_wf_arr in Hwf.
      pose proof (elems_back (S level) (x :: l) es IHl Hwf Hall) as Hb.
      destruct es as [|e es']; [inversion Hb|].
      assert (Hx : decodes_back x e) by (inversion Hb; assumption).
      pose proof Hx as (_ & (c & t' & Hce & _ & Hc93) & _).
      split; [|split].
      * rewrite jsize_arr, !length_app.
        pose proof (join_items_length (44 :: newline_indent (S level)) (e :: es')
                      ltac:(cbn [length]; lia)).
        pose proof (Forall2_sum_le (x :: l) (e :: es')
                      (Forall2_impl _ _ _ _ Hb (fun y e0 H => proj1 H))).
        cbn [length] in *. lia.
      * do 2 eexists. split; [reflexivity | split; [reflexivity | discriminate]].
      * intros [|f] [|room] rest Hf Hend; [rewrite jsize_arr in Hf; lia.. | reflexivity |].
        rewrite <- !app_assoc. cbn [app].
        rewrite (parse_value_arr f room _ (join_items (44 :: newline_indent (S level)) (e :: es')
                   ++ newline_indent level ++ 93 :: rest)).
        -- rewrite (parse_elems_encoded (S level) level x l (e :: es') [] f room rest Hb);
             [reflexivity | rewrite jsize_arr in Hf; lia].
        -- rewrite skip_ws_indent. apply (skip_ws_join _ _ _ _ _ Hx).
        -- rewrite join_items_cons, Hce. do 2 eexists. split; [reflexivity | exact Hc93].
  - intros [|[k x] kvs] IHk level t Hwf Henc.
    + cbn [encode_value] in Henc. destruct (DUMP_ROOM <=? level)%nat; [discriminate|].
      injection Henc as <-. literal_back.
    + rewrite encode_value_obj in Henc. destruct (DUMP_ROOM <=? level)%nat; [discriminate|].
      match type of Henc with
      | match ?a with _ => _ end = _ => destruct a as [items|] eqn:Hall; [|discriminate]
      end.
      some_inj Henc.
      apply json_wf_obj in Hwf as [Hnd Hwf].
      pose proof (members_back (S level) _ items IHk Hwf Hall) as Hb.
      destruct items as [|it items']; [inversion Hb|].
      assert (Hx : member_back (k, x) it) by (inversion Hb; assumption).
      destruct (member_first _ _ Hx) as [t2 Ht2].
      assert (Hlen : Forall2 (fun kv it0 => jsize (snd kv) <= length it0)%nat
                       ((k, x) :: kvs) (it :: items')).
      { apply (Forall2_impl _ _ _ _ Hb).
        intros kv it0 (_ & e & -> & He & _). rewrite !length_app. lia. }
      split; [|split].
      * rewrite jsize_obj, !length_app.
        pose proof (join_items_length (44 :: newline_indent (S level)) (it :: items')
                      ltac:(cbn [length]; lia)).
        pose proof (Forall2_sum_le_obj _ _ Hlen).
        cbn [length] in *. lia.
      * do 2 eexists. split; [reflexivity | split; [reflexivity | discriminate]].
      * intros [|f] [|room] rest Hf Hend; [rewrite jsize_obj in Hf; lia.. | reflexivity |].
        rewrite <- !app_assoc. cbn [app].
        rewrite (parse_value_obj f room _ (join_items (44 :: newline_indent (S level)) (it :: items')
                   ++ newline_indent level ++ 125 :: rest)).
        -- rewrite (parse_members_encoded (S level) level k x kvs (it :: items') [] f room rest Hb);
             [reflexivity | exact Hnd | rewrite jsize_obj in Hf; exact (le_S_n _ _ Hf)].
        -- rewrite skip_ws_indent, Ht2. apply skip_ws_join_c. reflexivity.
        -- rewrite join_items_cons, Ht2. do 2 eexists. split; [reflexivity | discriminate].
Qed.

Lemma fold_max_le {A : Type} (g : A -> nat) l b :
  Forall (fun x => g x <= b)%nat l -> (fold_right (fun x n => Nat.max (g x) n) 0%nat l <= b)%nat.
Proof. induction 1; cbn [fold_right]; lia. Qed.

(** The indent level of the innermost list or dict [json.dump] writes is
    below [DUMP_ROOM]. *)
Lemma encode_depth v : forall level t,
  encode_value level v = Some t -> (level + jdepth v <= Nat.max level DUMP_ROOM)%nat.
Proof.
  induction v as [| | | | |l IHl|kvs IHk] using json_ind_nested;
    intros level t Henc; cbn [jdepth]; try lia.
  - cbn [encode_value] in Henc.
    destruct (DUMP_ROOM <=? level)%nat eqn:Eroom; [discriminate|]. apply Nat.leb_gt in Eroom.
    destruct l as [|x l]; [cbn [fold_right]; lia|].
    destruct (encode_all (encode_value (S level)) (x :: l)) as [es|] eqn:Hall; [|discriminate].
    apply encode_all_Forall2 in Hall.
    assert (Hm : Forall (fun y => jdepth y <= DUMP_ROOM - S level)%nat (x :: l)).
    { clear Henc. induction Hall as [|y e l' es' Hy _ IH]; constructor.
      - apply Forall_cons in IHl as [Hy' _]. pose proof (Hy' _ _ Hy). lia.
      - apply IH. apply Forall_cons in IHl as [_ Hr]. exact Hr. }
    pose proof (fold_max_le jdepth _ _ Hm). lia.
  - cbn [encode_value] in Henc.
    destruct (DUMP_ROOM <=? level)%nat eqn:Eroom; [discriminate|]. apply Nat.leb_gt in Eroom.
    destruct kvs as [|kv kvs]; [cbn [fold_right]; lia|].
    match type of Henc with
    | match ?a with _ => _ end = _ => destruct a as [items|] eqn:Hall; [|discriminate]
    end.
    apply encode_all_Forall2 in Hall.
    assert (Hm : Forall (fun kv => jdepth (snd kv) <= DUMP_ROOM - S level)%nat (kv :: kvs)).
    { clear Henc. induction Hall as [|[k y] e l' es' Hy _ IH]; constructor.
      - apply Forall_cons in IHk as [Hy' _]. cbn [snd] in *.
        destruct (encode_value (S level) y) as [ey|] eqn:Hey; [|discriminate].
        pose proof (Hy' _ _ Hey). lia.
      - apply IH. apply Forall_cons in IHk as [_ Hr]. exact Hr. }
    pose proof (fold_max_le (fun kv => jdepth (snd kv)) _ _ Hm).
    assert (E : fold_right (fun '(_, x) n => Nat.max (jdepth x) n) 0%nat (kv :: kvs)
                = fold_right (fun kv n => Nat.max (jdepth (snd kv)) n) 0%nat (kv :: kvs)).
    { clear. induction (kv :: kvs) as [|[k x] r IH]; cbn [fold_right snd]; congruence. }
    rewrite E. lia.
Qed.

(** X10. A value that [json.dump] writes (every dict with distinct keys,
    no finite float) has lists and dicts nested at most [DUMP_ROOM] (994)
    deep, and [json.load] in [load_json_traces] reads it back unchanged
    when they nest at most [LOADS_ROOM_XES] (991) deep; deeper, the load
    raises [RecursionError] and the file is skipped. *)
Theorem dump_then_load v t :
  json_wf v -> json_dump v = Some t ->
  (jdepth v <= DUMP_ROOM)%nat /\
  file_json (Some t) = if (jdepth v <=? LOADS_ROOM_XES)%nat then Some v else None.
Proof.
  intros Hwf Hd. split; [pose proof (encode_depth v 0 t Hd); lia|].
  destruct (dump_ok_all v 0%nat t Hwf Hd) as (Hlen & (c & t' & Ht & Hws & _) & Hdec).
  cbn [file_json]. unfold json_loads_in.
  assert (Hs : skip_ws t = t) by (rewrite Ht; apply skip_ws_nonws; exact Hws).
  rewrite Hs.
  pose proof (Hdec (3 * length t + 3)%nat LOADS_ROOM_XES [] ltac:(lia) (or_introl eq_refl)) as Hp.
  rewrite app_nil_r in Hp. rewrite Hp. unfold scan_expect.
  destruct (jdepth v <=? LOADS_ROOM_XES)%nat; reflexivity.
Qed.

Lemma dump_then_load_witness :
  exists t, json_dump sample_record = Some t /\
    (jdepth sample_record <= DUMP_ROOM)%nat /\ file_json (Some t) = Some sample_record.
Proof.
  eexists. split; [reflexivity|].
  apply (dump_then_load sample_record).
  - cbn [json_wf fold_right sample_record]. repeat split;
      apply (bool_decide_unpack _); vm_compute; reflexivity.
  - reflexivity.
Defined.
